(** * Point-in-polygon (ray casting) for golang-geo: a shallow embedding

    The development follows the Go sources:
    - [Point] and its codecs (point.go),
    - [Polygon], [IsClosed], [Add] (polygon.go),
    - the two versions of [Contains]/[intersectsWithRaycast]:
      module [PolygonGo] is src/polygon.go (early return on an exact vertex,
      per-edge latitude nudge, longitude guard), module [Part001] is the
      other version of the same file (query moved off every vertex first).

    Go's [float64] is IEEE-754 binary64, which is what Rocq's primitive
    floats are; [==], [<], [>], [>=], [-], [/] are the primitive operations
    and [math.Nextafter(x, math.Inf(1))] is [next_up]. *)

From Stdlib Require Import ZArith List Bool Floats Lia.
From Stdlib.Strings Require Byte.
From stdpp Require Import base option list gmap strings.
Import ListNotations.

Set Default Proof Using "Type".

(** ** Go float64 comparisons, written the way the source writes them *)

Definition feq (x y : float) : bool := PrimFloat.eqb x y.   (* x == y *)
Definition flt (x y : float) : bool := PrimFloat.ltb x y.   (* x <  y *)
Definition fgt (x y : float) : bool := PrimFloat.ltb y x.   (* x >  y *)
Definition fge (x y : float) : bool := PrimFloat.leb y x.   (* x >= y *)

(** [math.Nextafter(x, math.Inf(1))]: NaN stays NaN, +Inf stays +Inf,
    otherwise the next representable double above [x]. *)
Definition Nextafter_up (x : float) : float := next_up x.

(** ** Outcomes of a Go call

    A call either returns, panics (index out of range) or keeps looping.
    Loops whose exit depends on data are run with a [fuel] budget: [Spin]
    is reported when the budget is used up. *)

Inductive outcome (A : Type) : Type :=
| Done (a : A)
| Panic
| Spin.
Arguments Done {A} a.
Arguments Panic {A}.
Arguments Spin {A}.

#[global] Instance outcome_bind : MBind outcome := fun A B k m =>
  match m with
  | Done a => k a
  | Panic => Panic
  | Spin => Spin
  end.

(** ** Point (point.go) *)

(** [Point] is a pair of [float64]. The record is kept generic in how a
    [float64] is represented: the geometry computes on primitive floats
    ([Point]), the binary codec only moves the 64 bits of each field
    ([Codec.Point64]). *)

Record PointOf (F : Type) : Type := NewPoint { lat : F; lng : F }.
Arguments NewPoint {F} lat lng.
Arguments lat {F} p.
Arguments lng {F} p.

Abbreviation Point := (PointOf float).

Definition Lat (p : Point) : float := lat p.
Definition Lng (p : Point) : float := lng p.

(** ** Polygon (polygon.go), as read by the queries: its point sequence *)

Record Polygon : Type := NewPolygon { points : list Point }.

Definition Points (p : Polygon) : list Point := points p.

(** [p.points[i]]: a run-time panic when [i] is out of range. *)
Definition index (pts : list Point) (i : nat) : outcome Point :=
  match pts !! i with
  | Some v => Done v
  | None => Panic
  end.

Definition IsClosed (p : Polygon) : bool :=
  if Nat.ltb (length (points p)) 3 then false else true.

(** [if start.lat > end.lat { start, end = end, start }] *)
Definition orient (start end_ : Point) : Point * Point :=
  if fgt (lat start) (lat end_) then (end_, start) else (start, end_).

(** [point.lat < start.lat || point.lat > end.lat] *)
Definition outside_span (point start end_ : Point) : bool :=
  flt (lat point) (lat start) || fgt (lat point) (lat end_).

(** The longitude comparisons of [intersectsWithRaycast] (lines 99-114 of
    polygon.go, 100-115 of the other version): [Some b] when they return
    [b], [None] when control falls through to the code below them. *)
Definition lng_band (point start end_ : Point) : option bool :=
  if fgt (lng start) (lng end_) then
    if fgt (lng point) (lng start) then Some false
    else if flt (lng point) (lng end_) then Some true
    else None
  else
    if fgt (lng point) (lng end_) then Some false
    else if flt (lng point) (lng start) then Some true
    else None.

Definition raySlope (point start : Point) : float :=
  ((lat point - lat start) / (lng point - lng start))%float.

Definition diagSlope (start end_ : Point) : float :=
  ((lat end_ - lat start) / (lng end_ - lng start))%float.

(** [return raySlope >= diagSlope] *)
Definition slopes (point start end_ : Point) : bool :=
  fge (raySlope point start) (diagSlope start end_).

(** ** src/polygon.go *)

Module PolygonGo.

(** [for _, p := range p.points { if p.lat == point.lat && p.lng == point.lng { return true } }] *)
Definition on_vertex (pts : list Point) (point : Point) : bool :=
  existsb (fun v => feq (lat v) (lat point) && feq (lng v) (lng point)) pts.

(** [for point.lat == start.lat || point.lat == end.lat { point = NewPoint(Nextafter(point.lat, +Inf), point.lng) }] *)
Fixpoint nudge (fuel : nat) (point start end_ : Point) : outcome Point :=
  match fuel with
  | O => Spin
  | S fuel' =>
      if feq (lat point) (lat start) || feq (lat point) (lat end_)
      then nudge fuel' (NewPoint (Nextafter_up (lat point)) (lng point)) start end_
      else Done point
  end.

(** What follows the nudge loop (lines 94-124), on the oriented edge. *)
Definition crossing (point start end_ : Point) : bool :=
  if outside_span point start end_ then false
  else match lng_band point start end_ with
       | Some b => b
       | None =>
           if feq (lng point) (lng start) then false
           else slopes point start end_
       end.

Definition intersectsWithRaycast (fuel : nat) (point start end_ : Point)
  : outcome bool :=
  let '(start, end_) := orient start end_ in
  point ← nudge fuel point start end_;
  Done (crossing point start end_).

(** [for i := 1; i < len(p.points); i++ { if intersects(point, &points[i-1], &points[i]) { contains = !contains } }],
    the loop counter running over [idxs]. *)
Fixpoint scan (fuel : nat) (pts : list Point) (point : Point)
         (idxs : list nat) (contains : bool) : outcome bool :=
  match idxs with
  | [] => Done contains
  | i :: idxs' =>
      a ← index pts (i - 1);
      b ← index pts i;
      c ← intersectsWithRaycast fuel point a b;
      scan fuel pts point idxs' (if (c : bool) then negb contains else contains)
  end.

Definition Contains (fuel : nat) (p : Polygon) (point : Point) : outcome bool :=
  if negb (IsClosed p) then Done false
  else if on_vertex (points p) point then Done true
  else
    let n := length (points p) in
    start ← index (points p) (n - 1);
    end_ ← index (points p) 0;
    contains ← intersectsWithRaycast fuel point start end_;
    scan fuel (points p) point (seq 1 (n - 1)) contains.

End PolygonGo.

(** ** src/unnamed/part_001: the version that moves the query first *)

Module Part001.

(** [for point.lat == p.lat { point = NewPoint(Nextafter(point.lat, +Inf), point.lng) }] *)
Fixpoint bump_lat (fuel : nat) (point v : Point) : outcome Point :=
  match fuel with
  | O => Spin
  | S fuel' =>
      if feq (lat point) (lat v)
      then bump_lat fuel' (NewPoint (Nextafter_up (lat point)) (lng point)) v
      else Done point
  end.

(** [for point.lng == p.lng { point = NewPoint(point.lat, Nextafter(point.lng, +Inf)) }] *)
Fixpoint bump_lng (fuel : nat) (point v : Point) : outcome Point :=
  match fuel with
  | O => Spin
  | S fuel' =>
      if feq (lng point) (lng v)
      then bump_lng fuel' (NewPoint (lat point) (Nextafter_up (lng point))) v
      else Done point
  end.

(** [for _, p := range p.points { ... }] (lines 52-64): one pass over the
    vertices, in order. *)
Fixpoint perturb (fuel : nat) (pts : list Point) (point : Point) : outcome Point :=
  match pts with
  | [] => Done point
  | v :: pts' =>
      point ← bump_lat fuel point v;
      point ← bump_lng fuel point v;
      perturb fuel pts' point
  end.

(** Lines 95-119, on the oriented edge. *)
Definition crossing (point start end_ : Point) : bool :=
  if outside_span point start end_ then false
  else match lng_band point start end_ with
       | Some b => b
       | None => slopes point start end_
       end.

Definition intersectsWithRaycast (point start end_ : Point) : bool :=
  let '(start, end_) := orient start end_ in
  crossing point start end_.

Fixpoint scan (pts : list Point) (point : Point)
         (idxs : list nat) (contains : bool) : outcome bool :=
  match idxs with
  | [] => Done contains
  | i :: idxs' =>
      a ← index pts (i - 1);
      b ← index pts i;
      scan pts point idxs'
        (if intersectsWithRaycast point a b then negb contains else contains)
  end.

Definition Contains (fuel : nat) (p : Polygon) (point : Point) : outcome bool :=
  if negb (IsClosed p) then Done false
  else
    point ← perturb fuel (points p) point;
    let n := length (points p) in
    start ← index (points p) (n - 1);
    end_ ← index (points p) 0;
    scan (points p) point (seq 1 (n - 1))
      (intersectsWithRaycast point start end_).

End Part001.

(** ** [Add] and Go slices

    [p.points] is a slice: a window of [len] elements on a backing array
    that has room for [cap]. [append] writes in place when there is room and
    moves to a fresh array otherwise. Backing arrays live in a heap and are
    named by their position in it; a slice is taken to start at the first
    cell of its array, which is what [make], [append] and a literal give. *)

Module GoSlice.

Record slice : Type := Slice { arr : nat; len : nat; cap : nat }.

Abbreviation heap := (list (list Point)).

Definition zero_Point : Point := NewPoint 0%float 0%float.

(** The elements a slice shows: [s[0], ..., s[len-1]]. *)
Definition elems (h : heap) (s : slice) : list Point :=
  take (len s) (default [] (h !! arr s)).

(** [make([]Point, n, c)] *)
Definition make (h : heap) (n c : nat) : heap * slice :=
  (h ++ [replicate c zero_Point], Slice (length h) n c).

(** The [nil] slice of [Polygon{}]. *)
Definition nil_slice : slice := Slice 0 0 0.

Record Polygon : Type := NewPolygon { points : slice }.

Definition Points (h : heap) (p : Polygon) : list Point := elems h (points p).

Section Append.

(** The run-time's growth policy: from the old capacity and the length
    needed, the capacity of the fresh array. *)
Variable growslice : nat -> nat -> nat.

(** [append(s, x)] *)
Definition append (h : heap) (s : slice) (x : Point) : heap * slice :=
  if Nat.ltb (len s) (cap s) then
    (alter (fun a => <[len s := x]> a) (arr s) h,
     Slice (arr s) (S (len s)) (cap s))
  else
    let c := growslice (cap s) (S (len s)) in
    (h ++ [elems h s ++ x :: replicate (c - S (len s)) zero_Point],
     Slice (length h) (S (len s)) c).

(** [func (p Polygon) Add(point Point) Polygon { p.points = append(p.points, point); return p }]:
    the receiver is a copy of the slice header, the backing array is not
    copied. *)
Definition Add (h : heap) (p : Polygon) (point : Point) : heap * Polygon :=
  let '(h', s') := append h (points p) point in
  (h', NewPolygon s').

(** [for _, point := range points.Points { p = p.Add(point) }], the loop
    of [polygonFromFile] and of the tests that build a polygon point by
    point. *)
Definition add_all (h : heap) (p : Polygon) (xs : list Point) : heap * Polygon :=
  fold_left (fun hp x => Add hp.1 hp.2 x) xs (h, p).

End Append.

(** A slice is well placed in a heap when its array exists and has room
    for its capacity. *)
Definition placed (h : heap) (s : slice) : Prop :=
  len s <= cap s /\
  (cap s = 0 \/ exists a, h !! arr s = Some a /\ cap s <= length a).

End GoSlice.

(** ** The codecs of [Point] (src/unnamed/part_003) *)

Module Codec.

Abbreviation byte := Byte.byte.

Inductive error : Type :=
| EOF                              (* io.EOF *)
| ErrUnexpectedEOF                 (* io.ErrUnexpectedEOF *)
| ReadFailed (cause : error)       (* fmt.Errorf("binary.Read failed: %v", err) *)
| UnmarshalTypeError.              (* encoding/json *)

(** *** Binary: [encoding/binary] with [binary.LittleEndian]

    A [float64] is written as [math.Float64bits] of it and read back with
    [math.Float64frombits]: both are the identity on the 64 bits, so a field
    is represented here by its bits, an integer below [2^64]. *)

Abbreviation Point64 := (PointOf Z).

Definition is_uint64 (v : Z) : Prop := (0 <= v < 2 ^ 64)%Z.

(** [byte(v)]: the low 8 bits. *)
Definition byte_of_Z (v : Z) : byte :=
  default Byte.x00 (Byte.of_N (Z.to_N (Z.land v 255))).

Definition Z_of_byte (b : byte) : Z := Z.of_N (Byte.to_N b).

(** [binary.LittleEndian.PutUint64] *)
Definition PutUint64 (v : Z) : list byte :=
  [ byte_of_Z v;
    byte_of_Z (Z.shiftr v 8);
    byte_of_Z (Z.shiftr v 16);
    byte_of_Z (Z.shiftr v 24);
    byte_of_Z (Z.shiftr v 32);
    byte_of_Z (Z.shiftr v 40);
    byte_of_Z (Z.shiftr v 48);
    byte_of_Z (Z.shiftr v 56) ].

(** [binary.LittleEndian.Uint64], on a slice of 8 bytes. *)
Definition Uint64 (b : list byte) : Z :=
  let at_ i := Z_of_byte (nth i b Byte.x00) in
  Z.lor (at_ 0%nat)
  (Z.lor (Z.shiftl (at_ 1%nat) 8)
  (Z.lor (Z.shiftl (at_ 2%nat) 16)
  (Z.lor (Z.shiftl (at_ 3%nat) 24)
  (Z.lor (Z.shiftl (at_ 4%nat) 32)
  (Z.lor (Z.shiftl (at_ 5%nat) 40)
  (Z.lor (Z.shiftl (at_ 6%nat) 48)
         (Z.shiftl (at_ 7%nat) 56))))))).

(** [io.ReadFull] of [n] bytes from a [bytes.Reader] with [r] left to read:
    the bytes and the rest, [io.EOF] when nothing is left, and
    [io.ErrUnexpectedEOF] when fewer than [n] bytes are. *)
Definition ReadFull (n : nat) (r : list byte) : (list byte * list byte) + error :=
  if Nat.eqb (length r) 0 then inr EOF
  else if Nat.ltb (length r) n then inr ErrUnexpectedEOF
  else inl (take n r, drop n r).

(** [binary.Read(buf, binary.LittleEndian, &x)] for [x float64] *)
Definition Read_float64 (r : list byte) : (Z * list byte) + error :=
  match ReadFull 8 r with
  | inl (bs, r') => inl (Uint64 bs, r')
  | inr e => inr e
  end.

(** [binary.Write(&buf, binary.LittleEndian, x)] for [x float64], on a
    [bytes.Buffer]: its [Write] always succeeds. *)
Definition Write_float64 (buf : list byte) (x : Z) : list byte * option error :=
  (buf ++ PutUint64 x, None).

Definition MarshalBinary (p : Point64) : list byte * option error :=
  let buf := [] in
  match Write_float64 buf (lat p) with
  | (_, Some e) => ([], Some e)
  | (buf, None) =>
      match Write_float64 buf (lng p) with
      | (_, Some e) => ([], Some e)
      | (buf, None) => (buf, None)
      end
  end.

(** The receiver is passed in and its new value returned with the error. *)
Definition UnmarshalBinary (p : Point64) (data : list byte)
  : Point64 * option error :=
  match Read_float64 data with
  | inr e => (p, Some (ReadFailed e))
  | inl (lat, buf) =>
      match Read_float64 buf with
      | inr e => (p, Some (ReadFailed e))
      | inl (lng, _) => (NewPoint lat lng, None)
      end
  end.

(** *** JSON: [encoding/json]

    The document is taken as the decoder's scanner delivers it. A number
    literal carries what [strconv.ParseFloat] makes of it: [None] when it is
    out of the range of [float64]. *)

#[warnings="-register-all"]
Inductive json : Type :=
| JNull
| JBool (b : bool)
| JNumber (v : option float)
| JString (s : string)
| JArray (l : list json)
| JObject (kvs : list (string * json)).

(** One value of the object, decoded into a [float64] element: [null]
    leaves the zero value, anything but a number in range is an
    [UnmarshalTypeError]. *)
Definition decode_float64 (v : json) : option float :=
  match v with
  | JNull => Some 0%float
  | JNumber (Some f) => Some f
  | _ => None
  end.

(** The fields of an object into [map[string]float64], in order (a later
    duplicate wins); the first error is kept and returned at the end. *)
Fixpoint decode_fields (kvs : list (string * json)) (m : gmap string float)
  : gmap string float * option error :=
  match kvs with
  | [] => (m, None)
  | (k, v) :: kvs' =>
      match decode_float64 v with
      | Some f => decode_fields kvs' (<[k := f]> m)
      | None =>
          let '(m', _) := decode_fields kvs' (<[k := 0%float]> m) in
          (m', Some UnmarshalTypeError)
      end
  end.

(** [dec.Decode(&values)] with [values map[string]float64] ([nil] at first) *)
Definition Decode (doc : json) : gmap string float * option error :=
  match doc with
  | JNull => (∅, None)
  | JObject kvs => decode_fields kvs ∅
  | _ => (∅, Some UnmarshalTypeError)
  end.

(** [values[k]]: the zero value for a key that is not there. *)
Definition map_get (values : gmap string float) (k : string) : float :=
  default 0%float (values !! k).

Definition UnmarshalJSON (p : Point) (doc : json) : Point * option error :=
  let '(values, err) := Decode doc in
  match err with
  | Some e => (p, Some e)
  | None => (NewPoint (map_get values "lat") (map_get values "lng"), None)
  end.

End Codec.

(** ** Fixtures *)

(** The point of [TestMarshalBinary], (40.7486, -73.9864), by its bits. *)
Definition empire_state : Codec.Point64 :=
  NewPoint 0x40445fd21ff2e48f%Z 0xc0527f212d773190%Z.

Definition pt (la lo : float) : Point := NewPoint la lo.

(** The square of [TestPolygon_Contains]: (0,0)-(2,0)-(2,2)-(0,2)-(0,0). *)
Definition square : Polygon :=
  NewPolygon [pt 0 0; pt 2 0; pt 2 2; pt 0 2; pt 0 0].

Definition reversed (p : Polygon) : Polygon := NewPolygon (rev (points p)).

(** A diamond around (1,1); (0.5,1) lies inside it, straight above the
    vertex (0,1) in longitude. *)
Definition diamond : Polygon :=
  NewPolygon [pt 0 1; pt 1 2; pt 2 1; pt 1 0].

(** The doubles right above 1 and 5. *)
Definition above_1 : float := Nextafter_up 1.
Definition above_5 : float := Nextafter_up 5.

(** A triangle whose first vertex is one step above its second, in both
    coordinates. *)
Definition stairs : Polygon :=
  NewPolygon [pt above_1 above_5; pt 1 5; pt 7 8].

(** A triangle with a vertex at latitude +Inf. *)
Definition unbounded : Polygon :=
  NewPolygon [pt infinity 0; pt 0 1; pt 1 0].

(** A box from (0,0) to (1,10) whose top edge rises by three steps of the
    latitude from longitude 0 to longitude 10, with a small spike one step
    above latitude 1 on its left side. *)
Definition kite : Polygon :=
  NewPolygon [pt 1 0;
              pt (Nextafter_up (Nextafter_up above_1)) 10;
              pt 0 10;
              pt 0 0;
              pt above_1 (-1)].

(** The query shares no latitude and no longitude with a vertex: none of
    the loops that move it has anything to do. *)
Definition clear_of (pts : list Point) (q : Point) : Prop :=
  forall v, In v pts ->
    feq (lat q) (lat v) = false /\ feq (lng q) (lng v) = false.

(** [x == x]: false for NaN only. *)
Definition not_nan (x : float) : bool := feq x x.

(** The edges of the scan loop, [(points[i-1], points[i])] for [i = 1..],
    as pairs of neighbours. *)
Fixpoint adj (l : list Point) : list (Point * Point) :=
  match l with
  | [] => []
  | a :: t =>
      match t with
      | [] => []
      | b :: _ => (a, b) :: adj t
      end
  end.

(** Whether an odd number of the edges [es] is crossed, in the sense of
    the edge test of the version that moves the query first. *)
Definition odd_crossings (q : Point) (es : list (Point * Point)) : bool :=
  fold_right (fun e acc => xorb (Part001.intersectsWithRaycast q e.1 e.2) acc)
             false es.

(** The query lies strictly above every vertex in latitude, strictly
    below every vertex, or strictly beyond every vertex in longitude. *)
Definition above (pts : list Point) (q : Point) : Prop :=
  forall v, In v pts -> flt (lat v) (lat q) = true.

Definition below (pts : list Point) (q : Point) : Prop :=
  forall v, In v pts -> flt (lat q) (lat v) = true.

Definition beyond (pts : list Point) (q : Point) : Prop :=
  forall v, In v pts -> flt (lng v) (lng q) = true.

(** A growth policy for the examples: twice the length asked for. *)
Definition double_growth (c n : nat) : nat := 2 * n.

(** A ring: a list of points that ends at the point it starts from. *)
Definition ring (a : Point) (m : list Point) : list Point := a :: m ++ [a].

(** A square of side 10 with a square hole of side 2 around (5,5), the
    two rings listed one after the other. *)
Definition outer_ring : list Point := ring (pt 0 0) [pt 0 10; pt 10 10; pt 10 0].

Definition inner_ring : list Point := ring (pt 4 4) [pt 4 6; pt 6 6; pt 6 4].

(** * Properties *)

(** ** Outcomes and fuel *)

Lemma bind_Done {A B} (m : outcome A) (k : A -> outcome B) (b : B) :
  (m ≫= k) = Done b -> exists a, m = Done a /\ k a = Done b.
Proof.
  destruct m as [a| |]; simpl; intros H; try discriminate.
  exists a; split; [reflexivity | exact H].
Qed.

Ltac outcome_inv H :=
  let a := fresh "a" in
  let Ha := fresh "Ha" in
  apply bind_Done in H; destruct H as (a & Ha & H).

Lemma IsClosed_false (p : Polygon) :
  IsClosed p = false <-> length (points p) < 3.
Proof.
  unfold IsClosed.
  destruct (Nat.ltb_spec (length (points p)) 3); split; intros; try lia; congruence.
Qed.

(** More fuel never changes a result. *)

Lemma nudge_mono (fuel fuel' : nat) (point start end_ r : Point) :
  fuel <= fuel' ->
  PolygonGo.nudge fuel point start end_ = Done r ->
  PolygonGo.nudge fuel' point start end_ = Done r.
Proof.
  revert fuel' point.
  induction fuel as [|fuel IH]; intros fuel' point Hle H; simpl in H.
  - discriminate.
  - destruct fuel' as [|fuel']; [lia|]. simpl.
    destruct (feq (lat point) (lat start) || feq (lat point) (lat end_)).
    + apply IH; [lia | exact H].
    + exact H.
Qed.

Lemma intersects_mono (fuel fuel' : nat) (point start end_ : Point) (b : bool) :
  fuel <= fuel' ->
  PolygonGo.intersectsWithRaycast fuel point start end_ = Done b ->
  PolygonGo.intersectsWithRaycast fuel' point start end_ = Done b.
Proof.
  unfold PolygonGo.intersectsWithRaycast.
  destruct (orient start end_) as [s e]. intros Hle H.
  outcome_inv H.
  rewrite (nudge_mono fuel fuel' point s e a Hle Ha). exact H.
Qed.

Lemma scan_mono (fuel fuel' : nat) (pts : list Point) (point : Point)
      (idxs : list nat) (c b : bool) :
  fuel <= fuel' ->
  PolygonGo.scan fuel pts point idxs c = Done b ->
  PolygonGo.scan fuel' pts point idxs c = Done b.
Proof.
  intros Hle. revert c.
  induction idxs as [|i idxs IH]; intros c H; simpl in *; [exact H|].
  outcome_inv H. rewrite Ha. simpl.
  outcome_inv H. rewrite Ha0. simpl.
  outcome_inv H.
  rewrite (intersects_mono fuel fuel' point a a0 a1 Hle Ha1). simpl.
  apply IH. exact H.
Qed.

Lemma PolygonGo_Contains_mono (fuel fuel' : nat) (p : Polygon) (q : Point) (b : bool) :
  fuel <= fuel' ->
  PolygonGo.Contains fuel p q = Done b ->
  PolygonGo.Contains fuel' p q = Done b.
Proof.
  unfold PolygonGo.Contains. intros Hle H.
  destruct (negb (IsClosed p)); [exact H|].
  destruct (PolygonGo.on_vertex (points p) q); [exact H|].
  cbv zeta in *.
  outcome_inv H. rewrite Ha. simpl.
  outcome_inv H. rewrite Ha0. simpl.
  outcome_inv H.
  rewrite (intersects_mono fuel fuel' q a a0 a1 Hle Ha1). simpl.
  apply (scan_mono fuel fuel'); assumption.
Qed.





(** ** The square of the tests (C1) *)

Lemma on_vertex_intro (pts : list Point) (q v : Point) :
  In v pts ->
  feq (lat v) (lat q) = true ->
  feq (lng v) (lng q) = true ->
  PolygonGo.on_vertex pts q = true.
Proof.
  intros Hin Hlat Hlng. unfold PolygonGo.on_vertex.
  apply existsb_exists. exists v. split; [exact Hin|].
  rewrite Hlat, Hlng. reflexivity.
Qed.

Lemma on_vertex_contained (fuel : nat) (p : Polygon) (q : Point) :
  IsClosed p = true ->
  PolygonGo.on_vertex (points p) q = true ->
  PolygonGo.Contains fuel p q = Done true.
Proof.
  intros Hc Hv. unfold PolygonGo.Contains. rewrite Hc, Hv. reflexivity.
Qed.




(** ** Fewer than three points (C2) *)

(** C2. [IsClosed] is false exactly when the polygon has fewer than 3
    points, and then [Contains] returns false for every query, in both
    versions and before any loop is entered (whatever the fuel). *)
Theorem open_polygon_contains_nothing (p : Polygon) :
  (IsClosed p = false <-> length (points p) < 3) /\
  (IsClosed p = false ->
   forall (fuel : nat) (q : Point),
     PolygonGo.Contains fuel p q = Done false /\
     Part001.Contains fuel p q = Done false).
Proof.
  split; [apply IsClosed_false|].
  intros Hc fuel q.
  unfold PolygonGo.Contains, Part001.Contains. rewrite Hc. simpl. split; reflexivity.
Qed.

Lemma open_polygon_contains_nothing_witness :
  PolygonGo.Contains 0 (NewPolygon [pt 0 0; pt 2 0]) (pt 0 0) = Done false /\
  Part001.Contains 0 (NewPolygon [pt 0 0; pt 2 0]) (pt 0 0) = Done false.
Proof.
  destruct (open_polygon_contains_nothing (NewPolygon [pt 0 0; pt 2 0])) as [Hiff Hno].
  apply Hno. apply Hiff. simpl. lia.
Defined.

(** ** The longitude guard of src/polygon.go (C7) *)

Lemma crossing_guard (p s e : Point) :
  outside_span p s e = false ->
  lng_band p s e = None ->
  feq (lng p) (lng s) = true ->
  PolygonGo.crossing p s e = false.
Proof.
  intros Hspan Hband Hlng. unfold PolygonGo.crossing.
  rewrite Hspan, Hband, Hlng. reflexivity.
Qed.

(** C7. In src/polygon.go, once the edge is oriented ([s] has the smaller
    latitude) and the query nudged to [p'], if neither the latitude span
    nor the longitude comparisons decide and [p'.lng == s.lng], then
    [intersectsWithRaycast] returns false. As a consequence [Contains] can
    miss a point inside the polygon: in the diamond, (0.5,1) shares its
    longitude with the vertex (0,1), its latitude lies strictly within the
    span of the edge (0,1)-(1,2), and [Contains] returns false (the other
    version returns true there). *)
Theorem lng_guard_returns_false :
  (forall (fuel : nat) (point start end_ s e p' : Point),
      orient start end_ = (s, e) ->
      PolygonGo.nudge fuel point s e = Done p' ->
      outside_span p' s e = false ->
      lng_band p' s e = None ->
      feq (lng p') (lng s) = true ->
      PolygonGo.intersectsWithRaycast fuel point start end_ = Done false) /\
  (let q := pt 0.5 1 in
   let s := pt 0 1 in
   let e := pt 1 2 in
   points diamond !! 0%nat = Some s /\ points diamond !! 1%nat = Some e /\
   orient s e = (s, e) /\
   feq (lng q) (lng s) = true /\
   flt (lat s) (lat q) = true /\ flt (lat q) (lat e) = true /\
   (forall fuel, 1 <= fuel -> PolygonGo.Contains fuel diamond q = Done false) /\
   Part001.Contains 2 diamond q = Done true).
Proof.
  split.
  - intros fuel point start end_ s e p' Ho Hn Hspan Hband Hlng.
    unfold PolygonGo.intersectsWithRaycast. rewrite Ho, Hn. simpl.
    rewrite (crossing_guard p' s e Hspan Hband Hlng). reflexivity.
  - cbv zeta.
    assert (Hgo : forall fuel, 1 <= fuel ->
                   PolygonGo.Contains fuel diamond (pt 0.5 1) = Done false).
    { intros fuel Hfuel.
      apply (PolygonGo_Contains_mono 1 fuel); [exact Hfuel | vm_compute; reflexivity]. }
    repeat (split; [vm_compute; reflexivity|]).
    split; [exact Hgo | vm_compute; reflexivity].
Qed.

Lemma lng_guard_returns_false_witness :
  PolygonGo.intersectsWithRaycast 1 (pt 0.5 1) (pt 1 2) (pt 0 1) = Done false.
Proof.
  apply (proj1 lng_guard_returns_false 1 (pt 0.5 1) (pt 1 2) (pt 0 1)
           (pt 0 1) (pt 1 2) (pt 0.5 1));
    vm_compute; reflexivity.
Defined.

(** ** The one-pass perturbation (C3) *)

(** C3 on the code: the loop of lines 52-64 visits each vertex once, so a
    step taken at a later vertex can land on an earlier one. On [stairs]
    the query (1,5) is moved off the second vertex onto the first one,
    with both coordinates equal; at the closing edge the slope comparison
    is then reached with [point.lng - start.lng] equal to zero. *)
Theorem perturb_lands_on_vertex :
  let p := pt above_1 above_5 in
  points stairs !! 0%nat = Some p /\
  Part001.perturb 2 (points stairs) (pt 1 5) = Done p /\
  (let s := pt above_1 above_5 in
   let e := pt 7 8 in
   points stairs !! 2%nat = Some e /\
   orient e s = (s, e) /\
   outside_span p s e = false /\
   lng_band p s e = None /\
   feq (lng p - lng s)%float 0%float = true).
Proof.
  cbv zeta. repeat split; vm_compute; reflexivity.
Qed.

(** ** Loops that do not end (C6) *)

Lemma Nextafter_up_infinity : Nextafter_up infinity = infinity.
Proof. reflexivity. Qed.

Lemma bump_lat_spins (fuel : nat) (lo : float) (v : Point) :
  lat v = infinity ->
  Part001.bump_lat fuel (NewPoint infinity lo) v = Spin.
Proof.
  intros Hv. induction fuel as [|fuel IH]; simpl; [reflexivity|].
  rewrite Hv. change (feq infinity infinity) with true. cbv iota.
  rewrite Nextafter_up_infinity. exact IH.
Qed.

Lemma nudge_spins (fuel : nat) (lo : float) (s e : Point) :
  lat e = infinity ->
  PolygonGo.nudge fuel (NewPoint infinity lo) s e = Spin.
Proof.
  intros He. induction fuel as [|fuel IH]; simpl; [reflexivity|].
  rewrite He. change (feq infinity infinity) with true.
  rewrite orb_true_r, Nextafter_up_infinity. exact IH.
Qed.

Lemma intersects_spins (fuel : nat) (lo : float) (start end_ s e : Point) :
  orient start end_ = (s, e) ->
  lat e = infinity ->
  PolygonGo.intersectsWithRaycast fuel (NewPoint infinity lo) start end_ = Spin.
Proof.
  intros Ho He. unfold PolygonGo.intersectsWithRaycast.
  rewrite Ho, (nudge_spins fuel lo s e He). reflexivity.
Qed.

(** C6 on the code: with a vertex at latitude +Inf and a query at latitude
    +Inf, the step to the next double leaves +Inf where it is and the loop
    condition stays true: neither version returns, whatever the budget. *)
Theorem contains_spins_at_infinity (fuel : nat) :
  Part001.Contains fuel unbounded (pt infinity 5) = Spin /\
  PolygonGo.Contains fuel unbounded (pt infinity 5) = Spin.
Proof.
  split.
  - unfold Part001.Contains, unbounded, pt. simpl.
    rewrite bump_lat_spins by reflexivity. reflexivity.
  - unfold PolygonGo.Contains, unbounded, pt. simpl.
    rewrite (intersects_spins fuel 5 (NewPoint 1 0) (NewPoint infinity 0)
               (NewPoint 1 0) (NewPoint infinity 0))%float
      by reflexivity.
    reflexivity.
Qed.

(** ** Reversing the point order (C5) *)

(** C5 on the code: [kite] contains the query (1,5) when its points are
    listed in reverse and does not when they are listed as given. The
    query is moved one step up in one order and two in the other, and the
    top edge of the box passes between the two. *)
Theorem reversal_changes_result :
  Part001.Contains 2 kite (pt 1 5) = Done false /\
  Part001.Contains 2 (reversed kite) (pt 1 5) = Done true /\
  Part001.perturb 2 (points kite) (pt 1 5)
    = Done (pt (Nextafter_up above_1) 5) /\
  Part001.perturb 2 (points (reversed kite)) (pt 1 5) = Done (pt above_1 5).
Proof.
  repeat split; vm_compute; reflexivity.
Qed.

(** ** Facts about [float64] comparisons, from the IEEE-754 specification *)

Lemma SFcompare_swap (x y : spec_float) :
  SFcompare y x = option_map CompOpp (SFcompare x y).
Proof.
  destruct x as [sx|sx| |sx mx ex], y as [sy|sy| |sy my ey]; simpl;
    try reflexivity;
    try (destruct sx; reflexivity);
    try (destruct sy; reflexivity);
    try (destruct sx, sy; reflexivity).
  destruct sx, sy; simpl; try reflexivity;
    rewrite (Z.compare_antisym ex ey);
    destruct (ex ?= ey)%Z; simpl; try reflexivity;
    rewrite (Pos.compare_cont_antisym mx my Eq); reflexivity.
Qed.

Lemma feq_sym (x y : float) : feq x y = feq y x.
Proof.
  unfold feq. rewrite !FloatAxioms.eqb_spec. unfold SFeqb.
  rewrite (SFcompare_swap (Prim2SF y) (Prim2SF x)).
  destruct (SFcompare (Prim2SF y) (Prim2SF x)) as [[ | | ]|]; reflexivity.
Qed.

Lemma SFcompare_total (x y : spec_float) :
  SFcompare x x = Some Eq -> SFcompare y y = Some Eq ->
  exists c, SFcompare x y = Some c.
Proof.
  destruct x as [sx|sx| |sx mx ex], y as [sy|sy| |sy my ey]; simpl;
    intros Hx Hy; try discriminate; eexists; reflexivity.
Qed.

Lemma SFcompare_Eq_l (a b q : spec_float) :
  SFcompare a b = Some Eq -> SFcompare a q = SFcompare b q.
Proof.
  destruct a as [sa|sa| |sa ma ea], b as [sb|sb| |sb mb eb]; simpl;
    try discriminate;
    try (destruct sa; discriminate);
    try (destruct sb; discriminate).
  - intros _. destruct q; reflexivity.
  - destruct sa, sb; try discriminate; reflexivity.
  - intros H.
    assert (sa = sb /\ ea = eb /\ ma = mb) as (-> & -> & ->).
    { destruct sa, sb; try discriminate;
        destruct (ea ?= eb)%Z eqn:He; try discriminate;
        apply Z.compare_eq in He; subst;
        (split; [reflexivity|split; [reflexivity|]]).
      - apply Pos.compare_eq.
        destruct (Pos.compare_cont Eq ma mb) eqn:Hm; try discriminate.
        exact Hm.
      - injection H as H. apply Pos.compare_eq. exact H. }
    reflexivity.
Qed.

Lemma feq_compare (x y : float) :
  feq x y = true <-> SFcompare (Prim2SF x) (Prim2SF y) = Some Eq.
Proof.
  unfold feq. rewrite FloatAxioms.eqb_spec. unfold SFeqb.
  destruct (SFcompare (Prim2SF x) (Prim2SF y)) as [[ | | ]|];
    split; intros H; try discriminate; reflexivity.
Qed.

Lemma flt_compare (x y : float) :
  flt x y = true <-> SFcompare (Prim2SF x) (Prim2SF y) = Some Lt.
Proof.
  unfold flt. rewrite FloatAxioms.ltb_spec. unfold SFltb.
  destruct (SFcompare (Prim2SF x) (Prim2SF y)) as [[ | | ]|];
    split; intros H; try discriminate; reflexivity.
Qed.

Lemma fgt_flt (x y : float) : fgt x y = flt y x.
Proof. reflexivity. Qed.

(** [x < y] excludes [y < x]. *)
Lemma flt_asym (x y : float) : flt x y = true -> flt y x = false.
Proof.
  intros H. apply flt_compare in H. apply not_true_is_false. intros H'.
  apply flt_compare in H'.
  rewrite (SFcompare_swap (Prim2SF x) (Prim2SF y)), H in H'. discriminate.
Qed.

(** Two numbers neither of which is below the other are equal. *)
Lemma feq_of_not_lt (x y : float) :
  not_nan x = true -> not_nan y = true ->
  flt x y = false -> flt y x = false -> feq x y = true.
Proof.
  unfold not_nan. intros Hx Hy Hxy Hyx.
  apply feq_compare in Hx. apply feq_compare in Hy.
  destruct (SFcompare_total _ _ Hx Hy) as [c Hc].
  destruct c.
  - apply feq_compare. exact Hc.
  - apply flt_compare in Hc. congruence.
  - assert (flt y x = true); [|congruence].
    apply flt_compare. rewrite (SFcompare_swap (Prim2SF x) (Prim2SF y)), Hc.
    reflexivity.
Qed.

(** [==] is a congruence for [<], on either side. *)
Lemma flt_feq_l (a b q : float) : feq a b = true -> flt a q = flt b q.
Proof.
  intros H. apply feq_compare in H.
  unfold flt. rewrite !FloatAxioms.ltb_spec. unfold SFltb.
  rewrite (SFcompare_Eq_l _ _ (Prim2SF q) H). reflexivity.
Qed.

Lemma flt_feq_r (a b q : float) : feq a b = true -> flt q a = flt q b.
Proof.
  intros H. apply feq_compare in H.
  unfold flt. rewrite !FloatAxioms.ltb_spec. unfold SFltb.
  rewrite (SFcompare_swap (Prim2SF a) (Prim2SF q)).
  rewrite (SFcompare_swap (Prim2SF b) (Prim2SF q)).
  rewrite (SFcompare_Eq_l _ _ (Prim2SF q) H). reflexivity.
Qed.

(** ** The two versions, side by side (C4) *)

Section OffVertices.

Variables (fuel : nat) (pts : list Point) (q : Point).
Hypothesis fuel_pos : 1 <= fuel.
Hypothesis clear : clear_of pts q.

Lemma index_In (i : nat) (v : Point) : index pts i = Done v -> In v pts.
Proof.
  unfold index. destruct (pts !! i) as [w|] eqn:Hi; [|discriminate].
  intros [= <-]. apply list_elem_of_In. eapply list_elem_of_lookup_2. exact Hi.
Qed.

Lemma bump_lat_clear (v : Point) : In v pts -> Part001.bump_lat fuel q v = Done q.
Proof using fuel_pos clear.
  intros Hv. destruct fuel as [|f]; [lia|]. simpl.
  destruct (clear v Hv) as [-> _]. reflexivity.
Qed.

Lemma bump_lng_clear (v : Point) : In v pts -> Part001.bump_lng fuel q v = Done q.
Proof using fuel_pos clear.
  intros Hv. destruct fuel as [|f]; [lia|]. simpl.
  destruct (clear v Hv) as [_ ->]. reflexivity.
Qed.

Lemma perturb_clear (l : list Point) :
  (forall v, In v l -> In v pts) -> Part001.perturb fuel l q = Done q.
Proof using fuel_pos clear.
  induction l as [|v l IH]; intros Hsub; simpl; [reflexivity|].
  rewrite bump_lat_clear by (apply Hsub; left; reflexivity). simpl.
  rewrite bump_lng_clear by (apply Hsub; left; reflexivity). simpl.
  apply IH. intros w Hw. apply Hsub. right. exact Hw.
Qed.

Lemma on_vertex_clear : PolygonGo.on_vertex pts q = false.
Proof using clear.
  unfold PolygonGo.on_vertex.
  apply not_true_is_false. intros H.
  apply existsb_exists in H. destruct H as (v & Hv & H).
  destruct (clear v Hv) as [Hlat _].
  rewrite (feq_sym (lat v) (lat q)), Hlat in H. discriminate.
Qed.

Lemma nudge_clear (s e : Point) :
  In s pts -> In e pts -> PolygonGo.nudge fuel q s e = Done q.
Proof using fuel_pos clear.
  intros Hs He. destruct fuel as [|f]; [lia|]. simpl.
  destruct (clear s Hs) as [-> _]. destruct (clear e He) as [-> _].
  reflexivity.
Qed.

Lemma crossing_clear (s e : Point) :
  In s pts -> PolygonGo.crossing q s e = Part001.crossing q s e.
Proof using clear.
  intros Hs. unfold PolygonGo.crossing, Part001.crossing.
  destruct (clear s Hs) as [_ ->]. reflexivity.
Qed.

Lemma intersects_clear (a b : Point) :
  In a pts -> In b pts ->
  PolygonGo.intersectsWithRaycast fuel q a b
  = Done (Part001.intersectsWithRaycast q a b).
Proof using fuel_pos clear.
  intros Ha Hb.
  unfold PolygonGo.intersectsWithRaycast, Part001.intersectsWithRaycast, orient.
  destruct (fgt (lat a) (lat b)).
  - rewrite (nudge_clear b a Hb Ha). simpl. rewrite (crossing_clear b a Hb). reflexivity.
  - rewrite (nudge_clear a b Ha Hb). simpl. rewrite (crossing_clear a b Ha). reflexivity.
Qed.

Lemma scan_clear (idxs : list nat) (c : bool) :
  PolygonGo.scan fuel pts q idxs c = Part001.scan pts q idxs c.
Proof using fuel_pos clear.
  revert c. induction idxs as [|i idxs IH]; intros c; simpl; [reflexivity|].
  destruct (index pts (i - 1)) as [a| |] eqn:Ha; simpl; try reflexivity.
  destruct (index pts i) as [b| |] eqn:Hb; simpl; try reflexivity.
  rewrite (intersects_clear a b (index_In _ _ Ha) (index_In _ _ Hb)). simpl.
  apply IH.
Qed.

End OffVertices.

Lemma index_Done (pts : list Point) (i : nat) :
  i < length pts -> exists v, index pts i = Done v.
Proof.
  intros Hi. unfold index.
  destruct (lookup_lt_is_Some_2 pts i Hi) as [v ->]. exists v. reflexivity.
Qed.

Lemma Part001_scan_Done (pts : list Point) (q : Point) (idxs : list nat) (c : bool) :
  (forall i, In i idxs -> i < length pts) ->
  exists b, Part001.scan pts q idxs c = Done b.
Proof.
  revert c. induction idxs as [|i idxs IH]; intros c Hin; simpl.
  - exists c. reflexivity.
  - destruct (index_Done pts (i - 1)) as [a ->].
    { specialize (Hin i (or_introl eq_refl)). lia. }
    destruct (index_Done pts i) as [b ->].
    { apply Hin. left. reflexivity. }
    simpl. apply IH. intros j Hj. apply Hin. right. exact Hj.
Qed.

(** C4, as the code has it. When the query shares no latitude and no
    longitude with any vertex, the two versions return the same boolean:
    the early return of src/polygon.go does not fire, no loop moves the
    query, and the longitude guard is never taken. *)
Theorem versions_agree_off_vertices (fuel : nat) (p : Polygon) (q : Point) :
  1 <= fuel ->
  clear_of (points p) q ->
  exists b : bool,
    PolygonGo.Contains fuel p q = Done b /\ Part001.Contains fuel p q = Done b.
Proof.
  intros Hfuel Hclear.
  unfold PolygonGo.Contains, Part001.Contains.
  destruct (IsClosed p) eqn:Hc; simpl.
  2:{ exists false. split; reflexivity. }
  rewrite (on_vertex_clear (points p) q Hclear).
  rewrite (perturb_clear fuel (points p) q Hfuel Hclear (points p)) by auto.
  simpl.
  assert (Hlen : 3 <= length (points p)).
  { destruct (Nat.lt_ge_cases (length (points p)) 3) as [Hlt|Hge]; [|exact Hge].
    apply IsClosed_false in Hlt. congruence. }
  destruct (index_Done (points p) (length (points p) - 1)) as [s Hs]; [lia|].
  destruct (index_Done (points p) 0) as [e He]; [lia|].
  rewrite Hs, He. simpl.
  rewrite (intersects_clear fuel (points p) q Hfuel Hclear s e
             (index_In _ _ _ Hs) (index_In _ _ _ He)).
  simpl.
  rewrite (scan_clear fuel (points p) q Hfuel Hclear).
  destruct (Part001_scan_Done (points p) q (seq 1 (length (points p) - 1))
              (Part001.intersectsWithRaycast q s e)) as [b Hb].
  { intros i Hi. apply in_seq in Hi. lia. }
  exists b. split; exact Hb.
Qed.

Lemma versions_agree_off_vertices_witness :
  exists b : bool,
    PolygonGo.Contains 1 square (pt 1 1) = Done b /\
    Part001.Contains 1 square (pt 1 1) = Done b.
Proof.
  apply (versions_agree_off_vertices 1 square (pt 1 1)); [lia|].
  intros v Hv. simpl in Hv.
  repeat (destruct Hv as [<-|Hv]; [split; vm_compute; reflexivity|]).
  destruct Hv.
Defined.

(** C4 as stated fails: at the vertex (2,2) of the square, src/polygon.go
    returns true at once and the other version, having moved the query to
    the next doubles above 2, returns false. *)
Lemma versions_differ_on_vertex :
  PolygonGo.Contains 2 square (pt 2 2) = Done true /\
  Part001.Contains 2 square (pt 2 2) = Done false.
Proof.
  split; vm_compute; reflexivity.
Qed.

(** ** [Add] and the backing array (C8) *)

Section AddFacts.

Variable growslice : nat -> nat -> nat.

Import GoSlice.

Lemma append_elems (h : heap) (s : slice) (x : Point) :
  placed h s ->
  let '(h', s') := append growslice h s x in
  elems h' s' = elems h s ++ [x] /\ elems h' s = elems h s.
Proof.
  intros [Hlen Hcap]. unfold append.
  destruct (Nat.ltb_spec (len s) (cap s)) as [Hlt|Hge].
  - destruct Hcap as [Hz|(a & Ha & Hroom)]; [lia|].
    unfold elems. simpl.
    rewrite list_lookup_alter_eq, Ha. simpl. split.
    + rewrite take_S_r with (x := x).
      * rewrite take_insert_ge by lia. reflexivity.
      * apply list_lookup_insert_eq. lia.
    + apply take_insert_ge. lia.
  - assert (Hnew : (h ++ [elems h s ++ x :: replicate (growslice (cap s) (S (len s)) - S (len s)) zero_Point])
                     !! length h
                   = Some (elems h s ++ x :: replicate (growslice (cap s) (S (len s)) - S (len s)) zero_Point)).
    { rewrite lookup_app_r by lia. rewrite Nat.sub_diag. reflexivity. }
    assert (Hfull : length (elems h s) = len s).
    { unfold elems. destruct Hcap as [Hz|(a & Ha & Hroom)].
      - assert (len s = 0) as -> by lia. reflexivity.
      - rewrite Ha. simpl. rewrite length_take. lia. }
    split.
    + unfold elems at 1. simpl. rewrite Hnew. simpl.
      rewrite (cons_middle x), app_assoc.
      apply take_app_length'. rewrite length_app, Hfull. simpl. lia.
    + unfold elems. destruct Hcap as [Hz|(a & Ha & Hroom)].
      * assert (len s = 0) as -> by lia. reflexivity.
      * rewrite lookup_app_l by (eapply lookup_lt_Some; exact Ha). reflexivity.
Qed.

Lemma append_placed (h : heap) (s : slice) (x : Point) :
  (forall c n, n <= growslice c n) ->
  placed h s ->
  let '(h', s') := append growslice h s x in placed h' s'.
Proof.
  intros Hgrow [Hlen Hcap]. unfold append.
  destruct (Nat.ltb_spec (len s) (cap s)) as [Hlt|Hge]; unfold placed; simpl.
  - split; [lia|]. right.
    destruct Hcap as [Hz|(a & Ha & Hroom)]; [lia|].
    exists (<[len s := x]> a). split.
    + rewrite list_lookup_alter_eq, Ha. reflexivity.
    + rewrite length_insert. exact Hroom.
  - pose proof (Hgrow (cap s) (S (len s))) as Hfit.
    split; [exact Hfit|]. right. eexists. split.
    + rewrite lookup_app_r by lia. rewrite Nat.sub_diag. reflexivity.
    + rewrite length_app. simpl. rewrite length_replicate.
      assert (length (elems h s) = len s) as ->; [|lia].
      unfold elems. destruct Hcap as [Hz|(a & Ha & Hroom)].
      * assert (len s = 0) as -> by lia. reflexivity.
      * rewrite Ha. simpl. rewrite length_take. lia.
Qed.

(** X1. What [Add] does get right: the polygon returned shows the receiver's
    points followed by the new one, and the receiver still shows its own. *)
Lemma Add_appends (h : heap) (p : Polygon) (x : Point) :
  placed h (points p) ->
  let '(h', p') := Add growslice h p x in
  Points h' p' = Points h p ++ [x] /\ Points h' p = Points h p.
Proof.
  intros Hp. unfold Add, Points.
  pose proof (append_elems h (points p) x Hp) as H.
  destruct (append growslice h (points p) x) as [h' s']. exact H.
Qed.

(** C8 on the code: a polygon whose slice has room left (2 points on an
    array of 3) is extended twice, first with [x], then with [y]. Both
    calls write the third cell of the same array: the polygon returned by
    the first call shows [x] after it and [y] once the second call is
    made. *)
Theorem Add_shares_backing_array (x y : Point) :
  let '(h0, s) := make [] 2 3 in
  let p := NewPolygon s in
  let '(h1, q1) := Add growslice h0 p x in
  let '(h2, q2) := Add growslice h1 p y in
  Points h0 p = [zero_Point; zero_Point] /\
  Points h1 q1 = [zero_Point; zero_Point; x] /\
  Points h2 q2 = [zero_Point; zero_Point; y] /\
  Points h2 q1 = [zero_Point; zero_Point; y] /\
  Points h2 p = [zero_Point; zero_Point].
Proof.
  cbn. repeat split; reflexivity.
Qed.

End AddFacts.

(** ** The binary codec (C9, C10) *)

Section Binary.

Import Codec.

Lemma Z_of_byte_of_Z (v : Z) : Z_of_byte (byte_of_Z v) = Z.land v 255.
Proof.
  unfold Z_of_byte, byte_of_Z.
  assert (Hr : (0 <= Z.land v 255 <= 255)%Z).
  { change 255%Z with (Z.ones 8). rewrite Z.land_ones by lia.
    pose proof (Z.mod_pos_bound v (2 ^ 8)) as H. change (Z.ones 8) with 255%Z.
    change (2 ^ 8)%Z with 256%Z in *. lia. }
  pose proof (Byte.to_of_N_option_map (Z.to_N (Z.land v 255))) as H.
  destruct (N.leb_spec (Z.to_N (Z.land v 255)) 255) as [_|Hgt]; [|lia].
  destruct (Byte.of_N (Z.to_N (Z.land v 255))) as [b|]; simpl in H; [|discriminate].
  injection H as H. change (default Byte.x00 (Some b)) with b. rewrite H. lia.
Qed.

Lemma testbit_255 (m : Z) : Z.testbit 255 m = (0 <=? m)%Z && (m <? 8)%Z.
Proof.
  change 255%Z with (Z.ones 8). apply Z.testbit_ones. lia.
Qed.

Lemma testbit_piece (v k n : Z) :
  (0 <= k)%Z -> (0 <= n)%Z ->
  Z.testbit (Z.shiftl (Z.land (Z.shiftr v k) 255) k) n
  = Z.testbit v n && ((k <=? n)%Z && (n <? k + 8)%Z).
Proof.
  intros Hk Hn. rewrite Z.shiftl_spec by lia.
  destruct (Z.leb_spec k n) as [Hle|Hlt].
  - rewrite Z.land_spec, Z.shiftr_spec, testbit_255 by lia.
    replace (n - k + k)%Z with n by lia.
    destruct (Z.leb_spec 0 (n - k)); [|lia].
    destruct (Z.ltb_spec (n - k) 8), (Z.ltb_spec n (k + 8)); try lia; reflexivity.
  - rewrite Z.testbit_neg_r by lia. rewrite andb_false_r. reflexivity.
Qed.

Lemma Uint64_PutUint64 (v : Z) : is_uint64 v -> Uint64 (PutUint64 v) = v.
Proof.
  intros [Hlo Hhi]. unfold Uint64, PutUint64. cbn [nth].
  rewrite !Z_of_byte_of_Z.
  rewrite <- (Z.shiftl_0_r (Z.land v 255)).
  rewrite <- (Z.shiftr_0_r v) at 1.
  apply Z.bits_inj'. intros n Hn.
  rewrite !Z.lor_spec, !testbit_piece by lia.
  destruct (Z.testbit v n) eqn:Hb; simpl.
  - assert (n < 64)%Z.
    { destruct (Z.lt_ge_cases n 64) as [H|H]; [exact H|].
      rewrite (Z.bits_above_log2 v n) in Hb; [discriminate | lia |].
      destruct (Z.eq_dec v 0%Z) as [->|Hnz]; [simpl; lia|].
      assert (Z.log2 v < 64)%Z by (apply Z.log2_lt_pow2; lia). lia. }
    repeat match goal with
           | |- context [(?a <=? n)%Z] => destruct (Z.leb_spec a n)
           | |- context [(n <? ?a)%Z] => destruct (Z.ltb_spec n a)
           end; simpl; try reflexivity; lia.
  - reflexivity.
Qed.

Lemma PutUint64_length (v : Z) : length (PutUint64 v) = 8.
Proof. reflexivity. Qed.

(** Byte [k] of [PutUint64 v] holds bits [8k .. 8k+7] of [v]: the least
    significant byte comes first. *)
Lemma PutUint64_little_endian (v : Z) (k : nat) :
  k < 8 ->
  Z_of_byte (nth k (PutUint64 v) Byte.x00)
  = ((v / 2 ^ (8 * Z.of_nat k)) mod 256)%Z.
Proof.
  intros Hk.
  assert (Hland : forall w, Z.land w 255 = (w mod 256)%Z).
  { intros w. change 255%Z with (Z.ones 8). rewrite Z.land_ones by lia. reflexivity. }
  do 8 (destruct k as [|k]; [cbn [nth PutUint64];
        rewrite Z_of_byte_of_Z, Hland;
        try (rewrite Z.shiftr_div_pow2 by lia);
        try (rewrite Z.div_1_r);
        reflexivity|]).
  lia.
Qed.

Lemma ReadFull_app (n : nat) (a r : list byte) :
  length a = n -> 0 < n -> ReadFull n (a ++ r) = inl (a, r).
Proof.
  intros Ha Hn. unfold ReadFull. rewrite length_app.
  destruct (Nat.eqb_spec (length a + length r) 0) as [H0|_]; [lia|].
  destruct (Nat.ltb_spec (length a + length r) n) as [Hlt|_]; [lia|].
  subst n. rewrite take_app_length, drop_app_length. reflexivity.
Qed.

End Binary.

Section Codecs.

Import Codec.

Lemma Read_float64_app (v : Z) (r : list byte) :
  is_uint64 v -> Read_float64 (PutUint64 v ++ r) = inl (v, r).
Proof.
  intros Hv. unfold Read_float64.
  rewrite (ReadFull_app 8 (PutUint64 v) r) by (try apply PutUint64_length; lia).
  rewrite (Uint64_PutUint64 v Hv). reflexivity.
Qed.

(** C9. [MarshalBinary] never fails and returns 16 bytes: the 8 bytes of
    the bits of [lat], least significant first, then the 8 bytes of the
    bits of [lng]; [UnmarshalBinary] on these bytes succeeds and sets the
    receiver to a point with the very same bits in both fields. *)
Theorem binary_round_trip (p : Point64) :
  is_uint64 (lat p) -> is_uint64 (lng p) ->
  MarshalBinary p = (PutUint64 (lat p) ++ PutUint64 (lng p), None) /\
  length (fst (MarshalBinary p)) = 16 /\
  (forall k, k < 8 ->
     Z_of_byte (nth k (fst (MarshalBinary p)) Byte.x00)
       = ((lat p / 2 ^ (8 * Z.of_nat k)) mod 256)%Z /\
     Z_of_byte (nth (8 + k) (fst (MarshalBinary p)) Byte.x00)
       = ((lng p / 2 ^ (8 * Z.of_nat k)) mod 256)%Z) /\
  (forall receiver : Point64,
     UnmarshalBinary receiver (fst (MarshalBinary p)) = (p, None)).
Proof.
  intros Hlat Hlng.
  assert (HM : MarshalBinary p = (PutUint64 (lat p) ++ PutUint64 (lng p), None))
    by reflexivity.
  rewrite HM. cbn [fst].
  split; [reflexivity|]. split; [reflexivity|]. split; [intros k Hk; split|].
  - rewrite app_nth1 by (rewrite PutUint64_length; lia).
    apply PutUint64_little_endian. lia.
  - rewrite app_nth2 by (rewrite PutUint64_length; lia).
    rewrite PutUint64_length. replace (8 + k - 8) with k by lia.
    apply PutUint64_little_endian. lia.
  - intros receiver. unfold UnmarshalBinary.
    rewrite (Read_float64_app (lat p) _ Hlat).
    rewrite <- (app_nil_r (PutUint64 (lng p))).
    rewrite (Read_float64_app (lng p) [] Hlng).
    destruct p; reflexivity.
Qed.

Lemma binary_round_trip_witness :
  UnmarshalBinary (NewPoint 0%Z 0%Z) (fst (MarshalBinary empire_state))
  = (empire_state, None).
Proof.
  apply (binary_round_trip empire_state); unfold is_uint64; simpl; lia.
Defined.

Lemma ReadFull_short (n : nat) (r : list byte) :
  length r < n -> exists e, ReadFull n r = inr e.
Proof.
  intros Hlt. unfold ReadFull.
  destruct (Nat.eqb (length r) 0); [eexists; reflexivity|].
  destruct (Nat.ltb_spec (length r) n); [eexists; reflexivity | lia].
Qed.

Lemma ReadFull_inl (n : nat) (r bs r' : list byte) :
  ReadFull n r = inl (bs, r') -> length r' = length r - n.
Proof.
  unfold ReadFull.
  destruct (Nat.eqb (length r) 0); [discriminate|].
  destruct (Nat.ltb_spec (length r) n); [discriminate|].
  intros [= <- <-]. apply length_drop.
Qed.

Lemma UnmarshalBinary_short (p : Point64) (data : list byte) :
  length data < 16 -> exists e, UnmarshalBinary p data = (p, Some e).
Proof.
  intros Hlen. unfold UnmarshalBinary, Read_float64.
  destruct (ReadFull 8 data) as [[bs r']|e] eqn:H1; [|eexists; reflexivity].
  apply ReadFull_inl in H1.
  destruct (ReadFull_short 8 r') as [e ->]; [lia|].
  eexists; reflexivity.
Qed.

Lemma decode_fields_error (kvs : list (string * json)) (m : gmap string float) :
  snd (decode_fields kvs m) = None
  <-> Forall (fun kv => is_Some (decode_float64 kv.2)) kvs.
Proof.
  revert m. induction kvs as [|[k v] kvs IH]; intros m; simpl.
  - split; [constructor | reflexivity].
  - destruct (decode_float64 v) as [f|] eqn:Hv.
    + rewrite IH. split.
      * intros H. constructor; [simpl; rewrite Hv; eexists; reflexivity | exact H].
      * intros H. inversion H; assumption.
    + destruct (decode_fields kvs (<[k:=0%float]> m)) as [m' e]. simpl. split.
      * discriminate.
      * intros H. inversion H as [|? ? Hhd ?]; subst. simpl in Hhd.
        rewrite Hv in Hhd. destruct Hhd as [? Hhd]. discriminate.
Qed.

Lemma decode_fields_missing (kvs : list (string * json))
      (m : gmap string float) (k : string) :
  k ∉ kvs.*1 -> fst (decode_fields kvs m) !! k = m !! k.
Proof.
  revert m. induction kvs as [|[k' v] kvs IH]; intros m Hk; simpl; [reflexivity|].
  simpl in Hk. apply not_elem_of_cons in Hk. destruct Hk as [Hne Hk].
  destruct (decode_float64 v) as [f|].
  - rewrite IH by exact Hk. apply lookup_insert_ne. congruence.
  - specialize (IH (<[k':=0%float]> m) Hk).
    destruct (decode_fields kvs (<[k':=0%float]> m)) as [m' e]. simpl in *.
    rewrite IH. apply lookup_insert_ne. congruence.
Qed.




End Codecs.

(** Away from the vertices the two versions are the same function. *)
Lemma Contains_clear (fuel : nat) (p : Polygon) (q : Point) :
  1 <= fuel -> clear_of (points p) q ->
  PolygonGo.Contains fuel p q = Part001.Contains fuel p q.
Proof.
  intros Hfuel Hclear. unfold PolygonGo.Contains, Part001.Contains.
  destruct (IsClosed p) eqn:Hc; simpl; [|reflexivity].
  rewrite (on_vertex_clear (points p) q Hclear).
  rewrite (perturb_clear fuel (points p) q Hfuel Hclear (points p)) by auto.
  simpl.
  destruct (index (points p) (length (points p) - 1)) as [s| |] eqn:Hs;
    simpl; try reflexivity.
  destruct (index (points p) 0) as [e| |] eqn:He; simpl; try reflexivity.
  rewrite (intersects_clear fuel (points p) q Hfuel Hclear s e
             (index_In _ _ _ Hs) (index_In _ _ _ He)).
  simpl. apply scan_clear; assumption.
Qed.

(** ** Reversal, away from the vertices *)

(** The edge test does not depend on the direction of the edge, for a
    query whose latitude is a number that is not the latitude of either
    end. *)
Lemma intersects_sym (q a b : Point) :
  not_nan (lat q) = true -> not_nan (lat a) = true -> not_nan (lat b) = true ->
  feq (lat q) (lat a) = false -> feq (lat q) (lat b) = false ->
  Part001.intersectsWithRaycast q a b = Part001.intersectsWithRaycast q b a.
Proof.
  intros Hq Ha Hb Hqa Hqb.
  unfold Part001.intersectsWithRaycast, orient. rewrite !fgt_flt.
  destruct (flt (lat b) (lat a)) eqn:Hba.
  - rewrite (flt_asym _ _ Hba). reflexivity.
  - destruct (flt (lat a) (lat b)) eqn:Hab; [reflexivity|].
    pose proof (feq_of_not_lt _ _ Ha Hb Hab Hba) as Heq.
    unfold Part001.crossing, outside_span. rewrite !fgt_flt.
    rewrite (flt_feq_r _ _ (lat q) Heq), (flt_feq_l _ _ (lat q) Heq).
    destruct (flt (lat q) (lat b)) eqn:H1; [reflexivity|].
    destruct (flt (lat b) (lat q)) eqn:H2; [reflexivity|].
    rewrite (feq_of_not_lt _ _ Hq Hb H1 H2) in Hqb. discriminate.
Qed.

Lemma adj_snoc (l : list Point) (z a : Point) :
  last l = Some z -> adj (l ++ [a]) = adj l ++ [(z, a)].
Proof.
  induction l as [|x l IH]; intros Hz; [discriminate|].
  destruct l as [|y l].
  - injection Hz as ->. reflexivity.
  - change (adj ((x :: y :: l) ++ [a])) with ((x, y) :: adj ((y :: l) ++ [a])).
    rewrite IH by exact Hz. reflexivity.
Qed.

Lemma adj_rev (l : list Point) :
  adj (rev l) = rev (map (fun e => (e.2, e.1)) (adj l)).
Proof.
  induction l as [|a l IH]; [reflexivity|].
  destruct l as [|b l]; [reflexivity|].
  change (rev (a :: b :: l)) with (rev (b :: l) ++ [a]).
  rewrite (adj_snoc (rev (b :: l)) b a).
  - rewrite IH. reflexivity.
  - simpl. rewrite last_snoc. reflexivity.
Qed.

Lemma adj_In (l : list Point) (a b : Point) :
  In (a, b) (adj l) -> In a l /\ In b l.
Proof.
  induction l as [|x l IH]; [intros []|].
  destruct l as [|y l]; [intros []|].
  intros [[= <- <-]|H]; [simpl; tauto|].
  destruct (IH H) as [Ha Hb]. split; right; assumption.
Qed.

Lemma odd_crossings_app (q : Point) (es es' : list (Point * Point)) :
  odd_crossings q (es ++ es') = xorb (odd_crossings q es) (odd_crossings q es').
Proof.
  induction es as [|e es IH]; simpl.
  - destruct (odd_crossings q es'); reflexivity.
  - rewrite IH, xorb_assoc. reflexivity.
Qed.

Lemma odd_crossings_rev (q : Point) (es : list (Point * Point)) :
  odd_crossings q (rev es) = odd_crossings q es.
Proof.
  induction es as [|e es IH]; [reflexivity|]. simpl.
  rewrite odd_crossings_app, IH. simpl.
  rewrite xorb_false_r. apply xorb_comm.
Qed.

Lemma odd_crossings_swap (q : Point) (es : list (Point * Point)) :
  (forall a b, In (a, b) es ->
     Part001.intersectsWithRaycast q a b = Part001.intersectsWithRaycast q b a) ->
  odd_crossings q (map (fun e => (e.2, e.1)) es) = odd_crossings q es.
Proof.
  induction es as [|[a b] es IH]; intros Hsym; [reflexivity|]. simpl.
  rewrite IH by (intros; apply Hsym; right; assumption).
  rewrite (Hsym a b) by (left; reflexivity). reflexivity.
Qed.

Lemma index_app_head (pre rest : list Point) (a : Point) :
  index (pre ++ a :: rest) (length pre) = Done a.
Proof.
  unfold index. rewrite lookup_app_r by lia. rewrite Nat.sub_diag. reflexivity.
Qed.

Lemma index_app_next (pre rest : list Point) (a b : Point) :
  index (pre ++ a :: b :: rest) (S (length pre)) = Done b.
Proof.
  unfold index. rewrite lookup_app_r by lia.
  replace (S (length pre) - length pre) with 1 by lia. reflexivity.
Qed.

(** The scan loop, run from index [|pre|+1] on, folds the edge test over
    the neighbours it meets. *)
Lemma scan_adj (q : Point) (rest pre : list Point) (a : Point) (c : bool) :
  Part001.scan (pre ++ a :: rest) q (seq (S (length pre)) (length rest)) c
  = Done (xorb c (odd_crossings q (adj (a :: rest)))).
Proof.
  revert pre a c. induction rest as [|b rest IH]; intros pre a c.
  - simpl. rewrite xorb_false_r. reflexivity.
  - cbn [length seq Part001.scan].
    replace (S (length pre) - 1) with (length pre) by lia.
    rewrite index_app_head, index_app_next.
    cbn [mbind outcome_bind].
    specialize (IH (pre ++ [a]) b).
    rewrite <- app_assoc, length_app in IH. cbn [app length] in IH.
    replace (length pre + 1) with (S (length pre)) in IH by lia.
    rewrite IH.
    change (adj (a :: b :: rest)) with ((a, b) :: adj (b :: rest)).
    cbn [odd_crossings fold_right fst snd].
    fold (odd_crossings q (adj (b :: rest))).
    destruct (Part001.intersectsWithRaycast q a b), c,
      (odd_crossings q (adj (b :: rest))); reflexivity.
Qed.

Lemma index_last (pts : list Point) (z : Point) :
  last pts = Some z -> index pts (length pts - 1) = Done z.
Proof.
  intros Hz. unfold index. rewrite last_lookup in Hz.
  replace (length pts - 1) with (pred (length pts)) by lia.
  rewrite Hz. reflexivity.
Qed.

(** [Contains], in the version that moves the query first, is the parity
    of the crossings of the moved query with the closing edge and the
    edges between neighbours. *)
Lemma Part001_Contains_parity (fuel : nat) (p : Polygon) (q z : Point) :
  IsClosed p = true ->
  last (points p) = Some z ->
  Part001.Contains fuel p q
  = (q' ← Part001.perturb fuel (points p) q;
     Done (odd_crossings q' (adj (z :: points p)))).
Proof.
  intros Hc Hz. unfold Part001.Contains. rewrite Hc. cbn [negb].
  destruct (Part001.perturb fuel (points p) q) as [q'| |]; try reflexivity.
  cbn [mbind outcome_bind].
  rewrite (index_last _ _ Hz). cbn [mbind outcome_bind].
  destruct (points p) as [|a rest]; [discriminate|].
  change (index (a :: rest) 0) with (Done a). cbn [mbind outcome_bind].
  cbn [length]. replace (S (length rest) - 1) with (length rest) by lia.
  rewrite (scan_adj q' rest [] a). 
  change (adj (z :: a :: rest)) with ((z, a) :: adj (a :: rest)).
  reflexivity.
Qed.

Lemma IsClosed_reversed (p : Polygon) : IsClosed (reversed p) = IsClosed p.
Proof.
  unfold IsClosed, reversed. cbn [points]. rewrite length_rev. reflexivity.
Qed.

Lemma clear_of_rev (pts : list Point) (q : Point) :
  clear_of pts q -> clear_of (rev pts) q.
Proof.
  intros H v Hv. apply H. apply in_rev. exact Hv.
Qed.

Lemma Part001_reversal (fuel : nat) (p : Polygon) (q : Point) :
  1 <= fuel ->
  clear_of (points p) q ->
  not_nan (lat q) = true ->
  (forall v, In v (points p) -> not_nan (lat v) = true) ->
  exists b : bool,
    Part001.Contains fuel p q = Done b /\
    Part001.Contains fuel (reversed p) q = Done b.
Proof.
  intros Hfuel Hclear Hq Hv.
  destruct (IsClosed p) eqn:Hc.
  2:{ exists false. unfold Part001.Contains.
      rewrite IsClosed_reversed, Hc. split; reflexivity. }
  assert (Hlen : 3 <= length (points p)).
  { destruct (Nat.lt_ge_cases (length (points p)) 3) as [Hlt|Hge]; [|exact Hge].
    apply IsClosed_false in Hlt. congruence. }
  destruct (points p) as [|a rest] eqn:Hp; [simpl in Hlen; lia|].
  destruct (last (a :: rest)) as [z|] eqn:Hz.
  2:{ rewrite last_None in Hz. discriminate. }
  assert (Hza : In z (a :: rest)).
  { apply list_elem_of_In, list_elem_of_lookup. rewrite last_lookup in Hz.
    eexists. exact Hz. }
  assert (Hsym : forall x y, In x (a :: rest) -> In y (a :: rest) ->
            Part001.intersectsWithRaycast q x y
            = Part001.intersectsWithRaycast q y x).
  { intros x y Hx Hy. apply intersects_sym; auto.
    - apply (Hclear x Hx).
    - apply (Hclear y Hy). }
  exists (odd_crossings q (adj (z :: a :: rest))). split.
  - rewrite (Part001_Contains_parity fuel p q z Hc) by (rewrite Hp; exact Hz).
    rewrite Hp.
    rewrite (perturb_clear fuel (a :: rest) q Hfuel Hclear (a :: rest)) by auto.
    reflexivity.
  - rewrite (Part001_Contains_parity fuel (reversed p) q a).
    + unfold reversed. cbn [points]. rewrite Hp.
      rewrite (perturb_clear fuel (rev (a :: rest)) q Hfuel
                 (clear_of_rev _ _ Hclear) (rev (a :: rest))) by auto.
      cbn [mbind outcome_bind]. f_equal.
      rewrite <- (rev_unit (a :: rest) a), adj_rev.
      rewrite odd_crossings_rev, odd_crossings_swap.
      * rewrite (adj_snoc (a :: rest) z a Hz), odd_crossings_app.
        change (adj (z :: a :: rest)) with ((z, a) :: adj (a :: rest)).
        cbn [odd_crossings fold_right fst snd].
        fold (odd_crossings q (adj (a :: rest))).
        rewrite xorb_false_r. apply xorb_comm.
      * intros x y Hxy. rewrite (adj_snoc (a :: rest) z a Hz) in Hxy.
        apply in_app_or in Hxy. destruct Hxy as [Hxy|[[= <- <-]|[]]].
        -- destruct (adj_In _ _ _ Hxy). apply Hsym; assumption.
        -- apply Hsym; [exact Hza | left; reflexivity].
    + rewrite IsClosed_reversed. exact Hc.
    + unfold reversed. cbn [points]. rewrite Hp. simpl. apply last_snoc.
Qed.

(** X2. Away from the vertices, the order of the points does not matter.
    When the query shares no latitude and no longitude with a vertex and
    neither its latitude nor that of a vertex is NaN, [Contains] returns
    the same boolean on the polygon and on the polygon with its points
    listed in reverse, in both versions. *)
Theorem reversal_invariant_off_vertices (fuel : nat) (p : Polygon) (q : Point) :
  1 <= fuel ->
  clear_of (points p) q ->
  not_nan (lat q) = true ->
  (forall v, In v (points p) -> not_nan (lat v) = true) ->
  exists b : bool,
    PolygonGo.Contains fuel p q = Done b /\
    PolygonGo.Contains fuel (reversed p) q = Done b /\
    Part001.Contains fuel p q = Done b /\
    Part001.Contains fuel (reversed p) q = Done b.
Proof.
  intros Hfuel Hclear Hq Hv.
  destruct (Part001_reversal fuel p q Hfuel Hclear Hq Hv) as (b & H1 & H2).
  exists b.
  rewrite (Contains_clear fuel p q Hfuel Hclear).
  rewrite (Contains_clear fuel (reversed p) q Hfuel (clear_of_rev _ _ Hclear)).
  auto.
Qed.

Lemma reversal_invariant_off_vertices_witness :
  exists b : bool,
    PolygonGo.Contains 1 square (pt 1 1) = Done b /\
    PolygonGo.Contains 1 (reversed square) (pt 1 1) = Done b /\
    Part001.Contains 1 square (pt 1 1) = Done b /\
    Part001.Contains 1 (reversed square) (pt 1 1) = Done b.
Proof.
  apply (reversal_invariant_off_vertices 1 square (pt 1 1)); [lia | | reflexivity |].
  - intros v Hv. simpl in Hv.
    repeat (destruct Hv as [<-|Hv]; [split; vm_compute; reflexivity|]).
    destruct Hv.
  - intros v Hv. simpl in Hv.
    repeat (destruct Hv as [<-|Hv]; [vm_compute; reflexivity|]).
    destruct Hv.
Defined.

(** ** More on the codecs *)

Section CodecsMore.

Import Codec.

Lemma decode_fields_lookup (kvs : list (string * json))
      (m : gmap string float) (k : string) (v : json) :
  NoDup kvs.*1 -> In (k, v) kvs ->
  fst (decode_fields kvs m) !! k = Some (default 0%float (decode_float64 v)).
Proof.
  revert m. induction kvs as [|[k' v'] kvs IH]; intros m Hnd Hin; [destruct Hin|].
  simpl in Hnd. apply NoDup_cons in Hnd. destruct Hnd as [Hfresh Hnd].
  destruct Hin as [[= -> ->]|Hin].
  - simpl. destruct (decode_float64 v) as [f|].
    + rewrite decode_fields_missing by exact Hfresh. apply lookup_insert_eq.
    + pose proof (decode_fields_missing kvs (<[k:=0%float]> m) k Hfresh) as H.
      destruct (decode_fields kvs (<[k:=0%float]> m)) as [m' e]. simpl in *.
      rewrite H. apply lookup_insert_eq.
  - simpl. destruct (decode_float64 v') as [f|].
    + apply IH; assumption.
    + specialize (IH (<[k':=0%float]> m) Hnd Hin).
      destruct (decode_fields kvs (<[k':=0%float]> m)) as [m' e]. exact IH.
Qed.

(** X3. An object whose values are all numbers or null and whose keys are distinct
    is decoded to the point of its [lat] and [lng] fields, wherever they
    stand in the object and whatever other fields it has. *)
Theorem UnmarshalJSON_any_order (p : Point) (kvs : list (string * json))
        (a b : float) :
  NoDup kvs.*1 ->
  Forall (fun kv => is_Some (decode_float64 kv.2)) kvs ->
  In ("lat"%string, JNumber (Some a)) kvs ->
  In ("lng"%string, JNumber (Some b)) kvs ->
  UnmarshalJSON p (JObject kvs) = (NewPoint a b, None).
Proof.
  intros Hnd Hall Ha Hb.
  pose proof (proj2 (decode_fields_error kvs ∅) Hall) as Herr.
  pose proof (decode_fields_lookup kvs ∅ _ _ Hnd Ha) as Hlat.
  pose proof (decode_fields_lookup kvs ∅ _ _ Hnd Hb) as Hlng.
  unfold UnmarshalJSON, Decode.
  destruct (decode_fields kvs ∅) as [values e]. simpl in *. subst e.
  unfold map_get. rewrite Hlat, Hlng. reflexivity.
Qed.

Lemma UnmarshalJSON_any_order_witness :
  UnmarshalJSON (pt 7 7)
    (JObject [("lng"%string, JNumber (Some 2%float));
              ("alt"%string, JNull);
              ("lat"%string, JNumber (Some 1%float))])
  = (pt 1 2, None).
Proof.
  apply (UnmarshalJSON_any_order (pt 7 7) _ 1 2).
  - apply (bool_decide_unpack _ (dec := NoDup_dec _)). vm_compute. exact I.
  - repeat constructor; simpl; eexists; reflexivity.
  - simpl. tauto.
  - simpl. tauto.
Defined.

Lemma ReadFull_long (n : nat) (r : list byte) :
  0 < n -> n <= length r -> ReadFull n r = inl (take n r, drop n r).
Proof.
  intros Hn Hlen. unfold ReadFull.
  destruct (Nat.eqb_spec (length r) 0); [lia|].
  destruct (Nat.ltb_spec (length r) n); [lia|]. reflexivity.
Qed.

Lemma Z_of_byte_range (b : byte) : (0 <= Z_of_byte b < 256)%Z.
Proof.
  unfold Z_of_byte. pose proof (Byte.to_N_bounded b). lia.
Qed.

Lemma Z_of_byte_testbit_high (b : byte) (n : Z) :
  (8 <= n)%Z -> Z.testbit (Z_of_byte b) n = false.
Proof.
  intros Hn. pose proof (Z_of_byte_range b) as [Hlo Hhi].
  destruct (Z.eq_dec (Z_of_byte b) 0%Z) as [->|Hnz]; [apply Z.testbit_0_l|].
  apply Z.bits_above_log2; [exact Hlo|].
  assert (Z.log2 (Z_of_byte b) < 8)%Z by (apply Z.log2_lt_pow2; lia). lia.
Qed.

Lemma byte_of_Z_of_byte (b : byte) : byte_of_Z (Z_of_byte b) = b.
Proof.
  unfold byte_of_Z.
  assert (Z.land (Z_of_byte b) 255 = Z_of_byte b) as ->.
  { change 255%Z with (Z.ones 8). rewrite Z.land_ones by lia.
    apply Z.mod_small. pose proof (Z_of_byte_range b). lia. }
  unfold Z_of_byte. rewrite N2Z.id, Byte.of_to_N. reflexivity.
Qed.

(** Bits [k .. k+7] of a word put together from bytes: the byte that was
    shifted by [k], when all the others are shifted by other multiples of 8. *)
Ltac byte_bits :=
  repeat match goal with
         | |- context [Z.testbit (Z_of_byte ?b) ?i] =>
             first [ rewrite (Z.testbit_neg_r (Z_of_byte b) i) by lia
                   | rewrite (Z_of_byte_testbit_high b i) by lia ]
         end.

Lemma Uint64_byte (b0 b1 b2 b3 b4 b5 b6 b7 : byte) (k : nat) :
  k < 8 ->
  byte_of_Z (Z.shiftr (Uint64 [b0; b1; b2; b3; b4; b5; b6; b7]) (8 * Z.of_nat k))
  = nth k [b0; b1; b2; b3; b4; b5; b6; b7] Byte.x00.
Proof.
  intros Hk.
  rewrite <- (byte_of_Z_of_byte (nth k _ Byte.x00)).
  unfold byte_of_Z at 1 2. do 3 f_equal.
  unfold Uint64. cbn [nth].
  apply Z.bits_inj'. intros n Hn.
  rewrite !Z.land_spec, !testbit_255.
  destruct (Z.ltb_spec n 8) as [Hlt|Hge];
    [|rewrite !andb_false_r; reflexivity].
  destruct (Z.leb_spec 0 n); [|lia]. rewrite !andb_true_r.
  rewrite Z.shiftr_spec by lia.
  rewrite !Z.lor_spec, !Z.shiftl_spec by lia.
  do 8 (destruct k as [|k];
        [cbn [nth Z.of_nat]; byte_bits;
         rewrite ?orb_false_r, ?orb_false_l; f_equal; lia|]).
  lia.
Qed.

Lemma PutUint64_Uint64 (bs : list byte) :
  length bs = 8 -> PutUint64 (Uint64 bs) = bs.
Proof.
  intros Hlen.
  do 8 (destruct bs as [|? bs]; [discriminate|]).
  destruct bs; [|discriminate].
  unfold PutUint64.
  rewrite <- (Z.shiftr_0_r (Uint64 _)) at 1.
  rewrite (Uint64_byte _ _ _ _ _ _ _ _ 0), (Uint64_byte _ _ _ _ _ _ _ _ 1),
    (Uint64_byte _ _ _ _ _ _ _ _ 2), (Uint64_byte _ _ _ _ _ _ _ _ 3),
    (Uint64_byte _ _ _ _ _ _ _ _ 4), (Uint64_byte _ _ _ _ _ _ _ _ 5),
    (Uint64_byte _ _ _ _ _ _ _ _ 6), (Uint64_byte _ _ _ _ _ _ _ _ 7) by lia.
  reflexivity.
Qed.

(** X4. [UnmarshalBinary] succeeds exactly on inputs of 16 bytes or more. It
    then reads the first 16 bytes and ignores the rest: encoding the point
    it has read gives these 16 bytes back. *)
Theorem UnmarshalBinary_reads_16 (p : Point64) (data : list byte) :
  (snd (UnmarshalBinary p data) = None <-> 16 <= length data) /\
  (16 <= length data ->
   fst (MarshalBinary (fst (UnmarshalBinary p data))) = take 16 data).
Proof.
  destruct (Nat.lt_ge_cases (length data) 16) as [Hshort|Hlong].
  - destruct (UnmarshalBinary_short p data Hshort) as [e ->]. simpl.
    split; [split; [discriminate | lia] | lia].
  - assert (HU : UnmarshalBinary p data
                 = (NewPoint (Uint64 (take 8 data))
                             (Uint64 (take 8 (drop 8 data))), None)).
    { unfold UnmarshalBinary, Read_float64.
      rewrite (ReadFull_long 8 data) by lia.
      rewrite (ReadFull_long 8 (drop 8 data)) by (rewrite ?length_drop; lia).
      reflexivity. }
    rewrite HU. cbn [fst snd]. split; [split; [lia | reflexivity]|].
    intros _. unfold MarshalBinary, Write_float64. cbn [fst lat lng app].
    rewrite !PutUint64_Uint64
      by (rewrite length_take, ?length_drop; lia).
    rewrite <- (take_drop 8 data) at 3.
    rewrite take_app_ge by (rewrite length_take; lia).
    rewrite length_take. replace (16 - 8 `min` length data) with 8 by lia.
    reflexivity.
Qed.

Lemma UnmarshalBinary_reads_16_witness :
  fst (MarshalBinary (fst (UnmarshalBinary empire_state
         (fst (MarshalBinary empire_state) ++ [Byte.xff]))))
  = take 16 (fst (MarshalBinary empire_state) ++ [Byte.xff]).
Proof.
  apply (UnmarshalBinary_reads_16 empire_state
           (fst (MarshalBinary empire_state) ++ [Byte.xff])).
  simpl. lia.
Defined.

End CodecsMore.

(** ** More on [Add] *)

Section AddMore.

Import GoSlice.

Variable growslice : nat -> nat -> nat.

(** The growth policy gives room for the length asked for. *)
Hypothesis growslice_fits : forall c n, n <= growslice c n.

Lemma Add_placed (h : heap) (p : Polygon) (x : Point) :
  placed h (points p) ->
  placed (Add growslice h p x).1 (points (Add growslice h p x).2).
Proof using growslice_fits.
  intros Hp. unfold Add.
  pose proof (append_placed growslice h (points p) x growslice_fits Hp) as H.
  destruct (append growslice h (points p) x) as [h' s']. exact H.
Qed.

Lemma Add_Points (h : heap) (p : Polygon) (x : Point) :
  placed h (points p) ->
  Points (Add growslice h p x).1 (Add growslice h p x).2 = Points h p ++ [x].
Proof.
  intros Hp. unfold Add, Points.
  pose proof (append_elems growslice h (points p) x Hp) as H.
  destruct (append growslice h (points p) x) as [h' s']. apply H.
Qed.

Lemma add_all_cons (h : heap) (p : Polygon) (x : Point) (xs : list Point) :
  add_all growslice h p (x :: xs)
  = add_all growslice (Add growslice h p x).1 (Add growslice h p x).2 xs.
Proof.
  unfold add_all. cbn [fold_left fst snd].
  destruct (Add growslice h p x); reflexivity.
Qed.

(** X5. Built point by point, each polygon handed to the next [Add] and not
    used again, a polygon shows the points it started with followed by
    the points added, in order; from the empty [Polygon{}] it shows
    exactly the points added. *)
Theorem add_all_Points (h : heap) (p : Polygon) (xs : list Point) :
  placed h (points p) ->
  Points (add_all growslice h p xs).1 (add_all growslice h p xs).2
    = Points h p ++ xs /\
  placed (add_all growslice h p xs).1 (points (add_all growslice h p xs).2).
Proof using growslice_fits.
  revert h p. induction xs as [|x xs IH]; intros h p Hp.
  - simpl. rewrite app_nil_r. split; [reflexivity | exact Hp].
  - rewrite add_all_cons.
    destruct (IH _ _ (Add_placed h p x Hp)) as [Hpts Hpl].
    split; [|exact Hpl].
    rewrite Hpts, (Add_Points h p x Hp), <- app_assoc. reflexivity.
Qed.

(** X6. When the receiver's slice is full, [Add] moves to a fresh array: two
    polygons made from the same receiver keep their own last point, and
    the receiver its points. *)
Theorem Add_full_slice_copies (h : heap) (p : Polygon) (x y : Point) :
  placed h (points p) ->
  len (points p) = cap (points p) ->
  let '(h1, q1) := Add growslice h p x in
  let '(h2, q2) := Add growslice h1 p y in
  Points h2 q1 = Points h p ++ [x] /\
  Points h2 q2 = Points h p ++ [y] /\
  Points h2 p = Points h p.
Proof using growslice_fits.
  intros Hp Hfull.
  pose proof (Add_Points h p x Hp) as H1.
  pose proof (Add_placed h p x Hp) as Hp1.
  assert (Hq1 : (Add growslice h p x).2
                = NewPolygon (Slice (length h) (S (len (points p)))
                                (growslice (cap (points p)) (S (len (points p)))))
                /\ exists a, (Add growslice h p x).1 = h ++ [a]).
  { unfold Add, append. rewrite Hfull, Nat.ltb_irrefl. cbn [fst snd].
    split; [reflexivity | eexists; reflexivity]. }
  destruct (Add growslice h p x) as [h1 q1]. cbn [fst snd] in *.
  destruct Hq1 as [-> [a ->]].
  assert (Hp' : placed (h ++ [a]) (points p)).
  { destruct Hp as [Hlen Hcap]. split; [exact Hlen|].
    destruct Hcap as [Hz|(b & Hb & Hroom)]; [left; exact Hz|].
    right. exists b. split; [|exact Hroom].
    rewrite lookup_app_l by (eapply lookup_lt_Some; exact Hb). exact Hb. }
  assert (Hsame : Points (h ++ [a]) p = Points h p).
  { unfold Points, elems. destruct Hp as [Hlen Hcap].
    destruct Hcap as [Hz|(b & Hb & Hroom)].
    - assert (len (points p) = 0) as -> by lia. reflexivity.
    - rewrite lookup_app_l by (eapply lookup_lt_Some; exact Hb). reflexivity. }
  pose proof (Add_Points (h ++ [a]) p y Hp') as H2.
  assert (Hh2 : exists b, (Add growslice (h ++ [a]) p y).1 = (h ++ [a]) ++ [b]).
  { unfold Add, append. rewrite Hfull, Nat.ltb_irrefl. cbn [fst].
    eexists; reflexivity. }
  destruct (Add growslice (h ++ [a]) p y) as [h2 q2]. cbn [fst snd] in *.
  destruct Hh2 as [b ->].
  split; [|split].
  - rewrite <- H1. unfold Points, elems. cbn [points arr len].
    rewrite (lookup_app_l (h ++ [a])) by (rewrite length_app; simpl; lia).
    reflexivity.
  - rewrite H2, Hsame. reflexivity.
  - rewrite <- Hsame. unfold Points, elems.
    destruct Hp' as [Hlen Hcap]. destruct Hcap as [Hz|(c & Hc & Hroom)].
    + assert (len (points p) = 0) as -> by lia. reflexivity.
    + rewrite (lookup_app_l (h ++ [a])) by (eapply lookup_lt_Some; exact Hc).
      reflexivity.
Qed.

End AddMore.

Lemma double_growth_fits (c n : nat) : n <= double_growth c n.
Proof. unfold double_growth. lia. Qed.

Lemma Add_appends_witness :
  let '(h', p') := GoSlice.Add double_growth [] (GoSlice.NewPolygon GoSlice.nil_slice) (pt 1 2) in
  GoSlice.Points h' p' = [] ++ [pt 1 2] /\
  GoSlice.Points h' (GoSlice.NewPolygon GoSlice.nil_slice) = [].
Proof.
  apply (Add_appends double_growth [] (GoSlice.NewPolygon GoSlice.nil_slice) (pt 1 2)).
  split; [simpl; lia | left; reflexivity].
Defined.

Lemma add_all_Points_witness :
  GoSlice.Points
    (GoSlice.add_all double_growth [] (GoSlice.NewPolygon GoSlice.nil_slice)
       [pt 0 0; pt 2 0; pt 2 2]).1
    (GoSlice.add_all double_growth [] (GoSlice.NewPolygon GoSlice.nil_slice)
       [pt 0 0; pt 2 0; pt 2 2]).2
  = [] ++ [pt 0 0; pt 2 0; pt 2 2].
Proof.
  apply (add_all_Points double_growth double_growth_fits []
           (GoSlice.NewPolygon GoSlice.nil_slice) [pt 0 0; pt 2 0; pt 2 2]).
  split; [simpl; lia | left; reflexivity].
Defined.

Lemma Add_full_slice_copies_witness :
  let '(h1, q1) := GoSlice.Add double_growth [] (GoSlice.NewPolygon GoSlice.nil_slice) (pt 1 2) in
  let '(h2, q2) := GoSlice.Add double_growth h1 (GoSlice.NewPolygon GoSlice.nil_slice) (pt 3 4) in
  GoSlice.Points h2 q1 = [] ++ [pt 1 2] /\
  GoSlice.Points h2 q2 = [] ++ [pt 3 4] /\
  GoSlice.Points h2 (GoSlice.NewPolygon GoSlice.nil_slice) = [].
Proof.
  apply (Add_full_slice_copies double_growth double_growth_fits []
           (GoSlice.NewPolygon GoSlice.nil_slice) (pt 1 2) (pt 3 4)).
  - split; [simpl; lia | left; reflexivity].
  - reflexivity.
Defined.

(** ** Queries on a vertex, and queries outside the bounding box *)

(** X7. [src/polygon.go]: every vertex of a polygon of three points or more
    is contained, whatever the shape, as long as its coordinates are
    numbers (a NaN compares unequal to itself). *)
Theorem vertex_is_contained (fuel : nat) (p : Polygon) (v : Point) :
  3 <= length (points p) ->
  In v (points p) ->
  not_nan (lat v) = true -> not_nan (lng v) = true ->
  PolygonGo.Contains fuel p v = Done true.
Proof.
  intros Hlen Hin Hlat Hlng.
  apply on_vertex_contained.
  - destruct (IsClosed p) eqn:Hc; [reflexivity|].
    apply IsClosed_false in Hc. lia.
  - apply (on_vertex_intro _ v v Hin Hlat Hlng).
Qed.

Lemma vertex_is_contained_witness :
  PolygonGo.Contains 0 diamond (pt 2 1) = Done true.
Proof.
  apply (vertex_is_contained 0 diamond (pt 2 1));
    [simpl; lia | simpl; tauto | reflexivity | reflexivity].
Defined.

Lemma flt_not_feq (x y : float) :
  flt x y = true -> feq x y = false /\ feq y x = false.
Proof.
  intros H. apply flt_compare in H.
  split; apply not_true_is_false; intros He; apply feq_compare in He.
  - congruence.
  - rewrite (SFcompare_swap (Prim2SF x) (Prim2SF y)), H in He. discriminate.
Qed.

(** The loops that move the query never panic, and each moves one
    coordinate only. *)
Lemma bump_lat_lng (fuel : nat) (q v q' : Point) :
  Part001.bump_lat fuel q v = Done q' -> lng q' = lng q.
Proof.
  revert q. induction fuel as [|fuel IH]; intros q H; simpl in H; [discriminate|].
  destruct (feq (lat q) (lat v)).
  - rewrite (IH _ H). reflexivity.
  - injection H as <-. reflexivity.
Qed.

Lemma bump_lng_lat (fuel : nat) (q v q' : Point) :
  Part001.bump_lng fuel q v = Done q' -> lat q' = lat q.
Proof.
  revert q. induction fuel as [|fuel IH]; intros q H; simpl in H; [discriminate|].
  destruct (feq (lng q) (lng v)).
  - rewrite (IH _ H). reflexivity.
  - injection H as <-. reflexivity.
Qed.

Lemma bump_lat_still (fuel : nat) (q v q' : Point) :
  feq (lat q) (lat v) = false -> Part001.bump_lat fuel q v = Done q' -> q' = q.
Proof.
  intros Hne H. destruct fuel as [|fuel]; simpl in H; [discriminate|].
  rewrite Hne in H. injection H as <-. reflexivity.
Qed.

Lemma bump_lng_still (fuel : nat) (q v q' : Point) :
  feq (lng q) (lng v) = false -> Part001.bump_lng fuel q v = Done q' -> q' = q.
Proof.
  intros Hne H. destruct fuel as [|fuel]; simpl in H; [discriminate|].
  rewrite Hne in H. injection H as <-. reflexivity.
Qed.

Lemma perturb_keeps_lat (fuel : nat) (pts : list Point) (q q' : Point) :
  (forall v, In v pts -> feq (lat q) (lat v) = false) ->
  Part001.perturb fuel pts q = Done q' -> lat q' = lat q.
Proof.
  revert q. induction pts as [|v pts IH]; intros q Hne H; simpl in H.
  - injection H as <-. reflexivity.
  - outcome_inv H. outcome_inv H.
    apply bump_lat_still in Ha; [|apply Hne; left; reflexivity]. subst a.
    apply bump_lng_lat in Ha0.
    rewrite (IH a0); [exact Ha0| |exact H].
    intros w Hw. rewrite Ha0. apply Hne. right. exact Hw.
Qed.

Lemma perturb_keeps_lng (fuel : nat) (pts : list Point) (q q' : Point) :
  (forall v, In v pts -> feq (lng q) (lng v) = false) ->
  Part001.perturb fuel pts q = Done q' -> lng q' = lng q.
Proof.
  revert q. induction pts as [|v pts IH]; intros q Hne H; simpl in H.
  - injection H as <-. reflexivity.
  - outcome_inv H. outcome_inv H.
    pose proof (bump_lat_lng _ _ _ _ Ha) as Hl.
    apply bump_lng_still in Ha0;
      [|rewrite Hl; apply Hne; left; reflexivity]. subst a0.
    rewrite (IH a); [exact Hl| |exact H].
    intros w Hw. rewrite Hl. apply Hne. right. exact Hw.
Qed.

Lemma bump_lat_no_panic (fuel : nat) (q v : Point) :
  Part001.bump_lat fuel q v <> Panic.
Proof.
  revert q. induction fuel as [|fuel IH]; intros q; simpl; [discriminate|].
  destruct (feq (lat q) (lat v)); [apply IH | discriminate].
Qed.

Lemma bump_lng_no_panic (fuel : nat) (q v : Point) :
  Part001.bump_lng fuel q v <> Panic.
Proof.
  revert q. induction fuel as [|fuel IH]; intros q; simpl; [discriminate|].
  destruct (feq (lng q) (lng v)); [apply IH | discriminate].
Qed.

Lemma perturb_no_panic (fuel : nat) (pts : list Point) (q : Point) :
  Part001.perturb fuel pts q <> Panic.
Proof.
  revert q. induction pts as [|v pts IH]; intros q; simpl; [discriminate|].
  pose proof (bump_lat_no_panic fuel q v) as H1.
  destruct (Part001.bump_lat fuel q v) as [a| |]; simpl; try congruence.
  pose proof (bump_lng_no_panic fuel a v) as H2.
  destruct (Part001.bump_lng fuel a v) as [b| |]; simpl;
    [apply IH | congruence | discriminate].
Qed.

Lemma nudge_lng (fuel : nat) (q s e q' : Point) :
  PolygonGo.nudge fuel q s e = Done q' -> lng q' = lng q.
Proof.
  revert q. induction fuel as [|fuel IH]; intros q H; simpl in H; [discriminate|].
  destruct (feq (lat q) (lat s) || feq (lat q) (lat e)).
  - rewrite (IH _ H). reflexivity.
  - injection H as <-. reflexivity.
Qed.

Lemma nudge_no_panic (fuel : nat) (q s e : Point) :
  PolygonGo.nudge fuel q s e <> Panic.
Proof.
  revert q. induction fuel as [|fuel IH]; intros q; simpl; [discriminate|].
  destruct (feq (lat q) (lat s) || feq (lat q) (lat e)); [apply IH | discriminate].
Qed.

Lemma crossing_outside (q s e : Point) :
  flt (lat e) (lat q) = true \/ flt (lat q) (lat s) = true \/
  (flt (lng s) (lng q) = true /\ flt (lng e) (lng q) = true) ->
  PolygonGo.crossing q s e = false /\ Part001.crossing q s e = false.
Proof.
  intros H. unfold PolygonGo.crossing, Part001.crossing, outside_span.
  rewrite !fgt_flt.
  destruct H as [H|[H|[Hs He]]].
  - rewrite H, orb_true_r. split; reflexivity.
  - rewrite H. split; reflexivity.
  - destruct (flt (lat q) (lat s) || flt (lat e) (lat q)); [split; reflexivity|].
    unfold lng_band. rewrite !fgt_flt, Hs, He.
    destruct (flt (lng e) (lng s)); split; reflexivity.
Qed.

Lemma orient_In (pts : list Point) (a b s e : Point) :
  In a pts -> In b pts -> orient a b = (s, e) -> In s pts /\ In e pts.
Proof.
  intros Ha Hb. unfold orient.
  destruct (fgt (lat a) (lat b)); intros [= <- <-]; split; assumption.
Qed.

Section OutsideBox.

Variables (pts : list Point) (q : Point).

(** The edge test of the version that moves the query first, on a query
    [q'] that kept the coordinate that puts [q] outside. *)
Lemma Part001_intersects_outside (q' a b : Point) :
  In a pts -> In b pts ->
  (above pts q \/ below pts q) /\ lat q' = lat q \/
  beyond pts q /\ lng q' = lng q ->
  Part001.intersectsWithRaycast q' a b = false.
Proof.
  intros Ha Hb H. unfold Part001.intersectsWithRaycast.
  destruct (orient a b) as [s e] eqn:Ho.
  destruct (orient_In pts a b s e Ha Hb Ho) as [Hs He].
  apply crossing_outside.
  destruct H as [[[H|H] Hl]|[H Hl]]; rewrite ?Hl.
  - left. apply H. exact He.
  - right. left. apply H. exact Hs.
  - right. right. split; apply H; assumption.
Qed.

Lemma Part001_scan_quiet (q' : Point) (idxs : list nat) (c : bool) :
  (forall i, In i idxs -> 1 <= i < length pts) ->
  (forall a b, In a pts -> In b pts ->
     Part001.intersectsWithRaycast q' a b = false) ->
  Part001.scan pts q' idxs c = Done c.
Proof.
  intros Hidx Hno. revert c.
  induction idxs as [|i idxs IH]; intros c; simpl; [reflexivity|].
  destruct (index_Done pts (i - 1)) as [a Ha].
  { specialize (Hidx i (or_introl eq_refl)). lia. }
  destruct (index_Done pts i) as [b Hb].
  { specialize (Hidx i (or_introl eq_refl)). lia. }
  rewrite Ha, Hb. simpl.
  rewrite (Hno a b (index_In pts _ _ Ha) (index_In pts _ _ Hb)).
  apply IH. intros j Hj. apply Hidx. right. exact Hj.
Qed.

(** [spin] tells whether running out of budget is among the outcomes. *)
Lemma PolygonGo_scan_quiet (spin : Prop) (fuel : nat) (idxs : list nat) (c : bool) :
  (forall i, In i idxs -> 1 <= i < length pts) ->
  (forall a b, In a pts -> In b pts ->
     PolygonGo.intersectsWithRaycast fuel q a b = Done false \/
     spin /\ PolygonGo.intersectsWithRaycast fuel q a b = Spin) ->
  PolygonGo.scan fuel pts q idxs c = Done c \/
  spin /\ PolygonGo.scan fuel pts q idxs c = Spin.
Proof.
  intros Hidx Hno. revert c.
  induction idxs as [|i idxs IH]; intros c; simpl; [left; reflexivity|].
  destruct (index_Done pts (i - 1)) as [a Ha].
  { specialize (Hidx i (or_introl eq_refl)). lia. }
  destruct (index_Done pts i) as [b Hb].
  { specialize (Hidx i (or_introl eq_refl)). lia. }
  rewrite Ha, Hb. simpl.
  destruct (Hno a b (index_In pts _ _ Ha) (index_In pts _ _ Hb)) as [->|[Hs ->]].
  - simpl. apply IH. intros j Hj. apply Hidx. right. exact Hj.
  - right. split; [exact Hs | reflexivity].
Qed.

Lemma nudge_still (fuel : nat) (s e : Point) :
  1 <= fuel ->
  feq (lat q) (lat s) = false -> feq (lat q) (lat e) = false ->
  PolygonGo.nudge fuel q s e = Done q.
Proof.
  intros Hfuel Hs He. destruct fuel as [|fuel]; [lia|]. simpl.
  rewrite Hs, He. reflexivity.
Qed.

Lemma PolygonGo_intersects_lat (fuel : nat) (a b : Point) :
  1 <= fuel -> above pts q \/ below pts q ->
  In a pts -> In b pts ->
  PolygonGo.intersectsWithRaycast fuel q a b = Done false.
Proof.
  intros Hfuel H Ha Hb. unfold PolygonGo.intersectsWithRaycast.
  destruct (orient a b) as [s e] eqn:Ho.
  destruct (orient_In pts a b s e Ha Hb Ho) as [Hs He].
  assert (Hne : forall v, In v pts -> feq (lat q) (lat v) = false).
  { intros v Hv. destruct H as [H|H]; apply (flt_not_feq _ _ (H v Hv)). }
  rewrite (nudge_still fuel s e Hfuel (Hne s Hs) (Hne e He)). simpl.
  f_equal. apply crossing_outside.
  destruct H as [H|H]; [left; apply H | right; left; apply H]; assumption.
Qed.

Lemma PolygonGo_intersects_lng (fuel : nat) (a b : Point) :
  beyond pts q -> In a pts -> In b pts ->
  PolygonGo.intersectsWithRaycast fuel q a b = Done false \/
  PolygonGo.intersectsWithRaycast fuel q a b = Spin.
Proof.
  intros H Ha Hb. unfold PolygonGo.intersectsWithRaycast.
  destruct (orient a b) as [s e] eqn:Ho.
  destruct (orient_In pts a b s e Ha Hb Ho) as [Hs He].
  pose proof (nudge_no_panic fuel q s e) as Hnp.
  destruct (PolygonGo.nudge fuel q s e) as [q'| |] eqn:Hn;
    [|congruence|right; reflexivity].
  left. simpl. f_equal. apply crossing_outside. right. right.
  rewrite (nudge_lng _ _ _ _ _ Hn). split; apply H; assumption.
Qed.

Lemma on_vertex_outside :
  above pts q \/ below pts q \/ beyond pts q ->
  PolygonGo.on_vertex pts q = false.
Proof.
  intros H. unfold PolygonGo.on_vertex.
  apply not_true_is_false. intros Hex.
  apply existsb_exists in Hex. destruct Hex as (v & Hv & Hex).
  apply andb_true_iff in Hex. destruct Hex as [Hlat Hlng].
  destruct H as [H|[H|H]].
  - destruct (flt_not_feq _ _ (H v Hv)). congruence.
  - destruct (flt_not_feq _ _ (H v Hv)). congruence.
  - destruct (flt_not_feq _ _ (H v Hv)). congruence.
Qed.

End OutsideBox.

(** X8. A query strictly above all the vertices in latitude, strictly below
    them all, or strictly beyond them all in longitude is never reported
    as contained: each version returns false, unless one of its loops fails
    to end within the budget. In the two latitude cases [src/polygon.go]
    has no loop to run and returns false. *)
Theorem outside_box_not_contained (fuel : nat) (p : Polygon) (q : Point) :
  above (points p) q \/ below (points p) q \/ beyond (points p) q ->
  (PolygonGo.Contains fuel p q = Done false \/ PolygonGo.Contains fuel p q = Spin) /\
  (Part001.Contains fuel p q = Done false \/ Part001.Contains fuel p q = Spin) /\
  (1 <= fuel -> above (points p) q \/ below (points p) q ->
   PolygonGo.Contains fuel p q = Done false).
Proof.
  intros H.
  unfold PolygonGo.Contains, Part001.Contains.
  destruct (IsClosed p) eqn:Hc; cbn [negb];
    [|split; [left; reflexivity | split; [left; reflexivity | reflexivity]]].
  assert (Hlen : 3 <= length (points p)).
  { destruct (Nat.lt_ge_cases (length (points p)) 3) as [Hlt|Hge]; [|exact Hge].
    apply IsClosed_false in Hlt. congruence. }
  rewrite (on_vertex_outside (points p) q H).
  destruct (index_Done (points p) (length (points p) - 1)) as [s Hs]; [lia|].
  destruct (index_Done (points p) 0) as [e He]; [lia|].
  pose proof (index_In _ _ _ Hs) as Hsin. pose proof (index_In _ _ _ He) as Hein.
  assert (Hidx : forall i, In i (seq 1 (length (points p) - 1)) ->
                           1 <= i < length (points p)).
  { intros i Hi. apply in_seq in Hi. lia. }
  rewrite Hs, He. cbn [mbind outcome_bind].
  split; [|split].
  - assert (Hedge : forall a b, In a (points p) -> In b (points p) ->
              PolygonGo.intersectsWithRaycast fuel q a b = Done false \/
              True /\ PolygonGo.intersectsWithRaycast fuel q a b = Spin).
    { intros a b Ha Hb. destruct H as [H|[H|H]].
      - destruct fuel as [|fuel].
        + right. split; [exact I|]. unfold PolygonGo.intersectsWithRaycast.
          destruct (orient a b). reflexivity.
        + left. apply (PolygonGo_intersects_lat (points p)); auto. lia.
      - destruct fuel as [|fuel].
        + right. split; [exact I|]. unfold PolygonGo.intersectsWithRaycast.
          destruct (orient a b). reflexivity.
        + left. apply (PolygonGo_intersects_lat (points p)); auto. lia.
      - destruct (PolygonGo_intersects_lng (points p) q fuel a b H Ha Hb) as [E|E];
          [left; exact E | right; split; [exact I | exact E]]. }
    destruct (Hedge s e Hsin Hein) as [->|[_ ->]]; [|right; reflexivity].
    cbn [mbind outcome_bind].
    destruct (PolygonGo_scan_quiet (points p) q True fuel
                (seq 1 (length (points p) - 1)) false Hidx Hedge) as [E|[_ E]];
      [left | right]; exact E.
  - pose proof (perturb_no_panic fuel (points p) q) as Hnp.
    destruct (Part001.perturb fuel (points p) q) as [q'| |] eqn:Hq';
      [|congruence|right; reflexivity].
    left. cbn [mbind outcome_bind].
    assert (Hkeep : (above (points p) q \/ below (points p) q) /\ lat q' = lat q \/
                    beyond (points p) q /\ lng q' = lng q).
    { destruct H as [H|[H|H]].
      - left. split; [left; exact H|].
        apply (perturb_keeps_lat fuel (points p)); [|exact Hq'].
        intros v Hv. apply (flt_not_feq _ _ (H v Hv)).
      - left. split; [right; exact H|].
        apply (perturb_keeps_lat fuel (points p)); [|exact Hq'].
        intros v Hv. apply (flt_not_feq _ _ (H v Hv)).
      - right. split; [exact H|].
        apply (perturb_keeps_lng fuel (points p)); [|exact Hq'].
        intros v Hv. apply (flt_not_feq _ _ (H v Hv)). }
    rewrite (Part001_intersects_outside (points p) q q' s e Hsin Hein Hkeep).
    apply (Part001_scan_quiet (points p)); [exact Hidx|].
    intros a b Ha Hb.
    apply (Part001_intersects_outside (points p) q q' a b Ha Hb Hkeep).
  - intros Hfuel Hlat.
    assert (Hedge : forall a b, In a (points p) -> In b (points p) ->
              PolygonGo.intersectsWithRaycast fuel q a b = Done false \/
              False /\ PolygonGo.intersectsWithRaycast fuel q a b = Spin).
    { intros a b Ha Hb. left.
      apply (PolygonGo_intersects_lat (points p)); assumption. }
    destruct (Hedge s e Hsin Hein) as [->|[[] _]].
    cbn [mbind outcome_bind].
    destruct (PolygonGo_scan_quiet (points p) q False fuel
                (seq 1 (length (points p) - 1)) false Hidx Hedge) as [E|[[] _]].
    exact E.
Qed.

Lemma outside_box_not_contained_witness :
  PolygonGo.Contains 1 square (pt 3 1) = Done false.
Proof.
  assert (Habove : above (points square) (pt 3 1)).
  { intros v Hv. simpl in Hv.
    repeat (destruct Hv as [<-|Hv]; [vm_compute; reflexivity|]).
    destruct Hv. }
  apply (outside_box_not_contained 1 square (pt 3 1) (or_introl Habove));
    [lia | left; exact Habove].
Defined.

(** ** A query whose latitude is NaN *)

Lemma SFcompare_refl (x : spec_float) :
  x <> S754_nan -> SFcompare x x = Some Eq.
Proof.
  destruct x as [s|s| |s m e]; simpl; intros H; try congruence.
  - destruct s; reflexivity.
  - rewrite Z.compare_refl.
    change (Pos.compare_cont Eq m m) with (Pos.compare m m).
    rewrite Pos.compare_refl. destruct s; reflexivity.
Qed.

Lemma nan_compare (x y : float) :
  not_nan x = false ->
  SFcompare (Prim2SF x) (Prim2SF y) = None /\
  SFcompare (Prim2SF y) (Prim2SF x) = None.
Proof.
  unfold not_nan. intros H.
  assert (Hx : Prim2SF x = S754_nan).
  { destruct (Prim2SF x) as [s|s| |s m e] eqn:E; [| |reflexivity|];
      (assert (feq x x = true); [|congruence]);
      apply feq_compare; rewrite E; apply SFcompare_refl; discriminate. }
  rewrite Hx. split; [reflexivity|]. destruct (Prim2SF y); reflexivity.
Qed.

(** Every comparison with NaN is false. *)
Lemma nan_unordered (x y : float) :
  not_nan x = false ->
  feq x y = false /\ feq y x = false /\ flt x y = false /\ flt y x = false.
Proof.
  intros H. destruct (nan_compare x y H) as [H1 H2].
  repeat split; apply not_true_is_false; intros E.
  - apply feq_compare in E. congruence.
  - apply feq_compare in E. congruence.
  - apply flt_compare in E. congruence.
  - apply flt_compare in E. congruence.
Qed.

Section NaNLatitude.

Variables (pts : list Point) (q : Point).
Hypothesis lat_nan : not_nan (lat q) = false.
Hypothesis left_of : forall v, In v pts -> flt (lng q) (lng v) = true.

Lemma crossing_nan (s e : Point) :
  In s pts -> In e pts ->
  PolygonGo.crossing q s e = true /\ Part001.crossing q s e = true.
Proof using lat_nan left_of.
  intros Hs He. unfold PolygonGo.crossing, Part001.crossing, outside_span.
  rewrite !fgt_flt.
  destruct (nan_unordered (lat q) (lat s) lat_nan) as (_ & _ & -> & _).
  destruct (nan_unordered (lat q) (lat e) lat_nan) as (_ & _ & _ & ->).
  cbn [orb]. unfold lng_band. rewrite !fgt_flt.
  rewrite (flt_asym _ _ (left_of s Hs)), (flt_asym _ _ (left_of e He)).
  rewrite (left_of s Hs), (left_of e He).
  destruct (flt (lng e) (lng s)); split; reflexivity.
Qed.

Lemma Part001_intersects_nan (a b : Point) :
  In a pts -> In b pts -> Part001.intersectsWithRaycast q a b = true.
Proof using lat_nan left_of.
  intros Ha Hb. unfold Part001.intersectsWithRaycast.
  destruct (orient a b) as [s e] eqn:Ho.
  destruct (orient_In pts a b s e Ha Hb Ho) as [Hs He].
  apply crossing_nan; assumption.
Qed.

Lemma PolygonGo_intersects_nan (fuel : nat) (a b : Point) :
  1 <= fuel -> In a pts -> In b pts ->
  PolygonGo.intersectsWithRaycast fuel q a b = Done true.
Proof using lat_nan left_of.
  intros Hfuel Ha Hb. unfold PolygonGo.intersectsWithRaycast.
  destruct (orient a b) as [s e] eqn:Ho.
  destruct (orient_In pts a b s e Ha Hb Ho) as [Hs He].
  rewrite (nudge_still q fuel s e Hfuel).
  - simpl. f_equal. apply crossing_nan; assumption.
  - apply (nan_unordered _ _ lat_nan).
  - apply (nan_unordered _ _ lat_nan).
Qed.

Lemma perturb_nan (fuel : nat) (l : list Point) :
  1 <= fuel -> (forall v, In v l -> In v pts) ->
  Part001.perturb fuel l q = Done q.
Proof using lat_nan left_of.
  intros Hfuel. induction l as [|v l IH]; intros Hsub; simpl; [reflexivity|].
  destruct fuel as [|fuel]; [lia|]. simpl.
  destruct (nan_unordered (lat q) (lat v) lat_nan) as (-> & _).
  simpl.
  destruct (flt_not_feq _ _ (left_of v (Hsub v (or_introl eq_refl)))) as [-> _].
  simpl. apply IH. intros w Hw. apply Hsub. right. exact Hw.
Qed.

Lemma on_vertex_nan : PolygonGo.on_vertex pts q = false.
Proof using lat_nan.
  unfold PolygonGo.on_vertex. apply not_true_is_false. intros Hex.
  apply existsb_exists in Hex. destruct Hex as (v & Hv & Hex).
  apply andb_true_iff in Hex. destruct Hex as [Hlat _].
  destruct (nan_unordered (lat q) (lat v) lat_nan) as (_ & H & _). congruence.
Qed.

Lemma Part001_scan_all (idxs : list nat) (c : bool) :
  (forall i, In i idxs -> 1 <= i < length pts) ->
  Part001.scan pts q idxs c = Done (xorb c (Nat.odd (length idxs))).
Proof using lat_nan left_of.
  intros Hidx. revert c.
  induction idxs as [|i idxs IH]; intros c.
  - simpl. rewrite xorb_false_r. reflexivity.
  - cbn [Part001.scan].
    destruct (index_Done pts (i - 1)) as [a Ha].
    { specialize (Hidx i (or_introl eq_refl)). lia. }
    destruct (index_Done pts i) as [b Hb].
    { specialize (Hidx i (or_introl eq_refl)). lia. }
    rewrite Ha, Hb. cbn [mbind outcome_bind].
    rewrite (Part001_intersects_nan a b (index_In pts _ _ Ha) (index_In pts _ _ Hb)).
    rewrite IH by (intros j Hj; apply Hidx; right; exact Hj).
    cbn [length]. rewrite Nat.odd_succ, <- Nat.negb_odd.
    destruct c, (Nat.odd (length idxs)); reflexivity.
Qed.

Lemma PolygonGo_scan_all (fuel : nat) (idxs : list nat) (c : bool) :
  1 <= fuel ->
  (forall i, In i idxs -> 1 <= i < length pts) ->
  PolygonGo.scan fuel pts q idxs c = Done (xorb c (Nat.odd (length idxs))).
Proof using lat_nan left_of.
  intros Hfuel Hidx. revert c.
  induction idxs as [|i idxs IH]; intros c.
  - simpl. rewrite xorb_false_r. reflexivity.
  - cbn [PolygonGo.scan].
    destruct (index_Done pts (i - 1)) as [a Ha].
    { specialize (Hidx i (or_introl eq_refl)). lia. }
    destruct (index_Done pts i) as [b Hb].
    { specialize (Hidx i (or_introl eq_refl)). lia. }
    rewrite Ha, Hb. cbn [mbind outcome_bind].
    rewrite (PolygonGo_intersects_nan fuel a b Hfuel
               (index_In pts _ _ Ha) (index_In pts _ _ Hb)).
    cbn [mbind outcome_bind].
    rewrite IH by (intros j Hj; apply Hidx; right; exact Hj).
    cbn [length]. rewrite Nat.odd_succ, <- Nat.negb_odd.
    destruct c, (Nat.odd (length idxs)); reflexivity.
Qed.

End NaNLatitude.

(** X9. A query whose latitude is NaN is not rejected by the latitude test,
    every comparison with NaN being false. When its longitude lies below
    that of every vertex, each edge counts as crossed and both versions
    return the parity of the number of points: true for a polygon with an
    odd number of points, three or more, and false for an even one. *)
Theorem nan_latitude_parity (fuel : nat) (p : Polygon) (q : Point) :
  1 <= fuel ->
  3 <= length (points p) ->
  not_nan (lat q) = false ->
  (forall v, In v (points p) -> flt (lng q) (lng v) = true) ->
  PolygonGo.Contains fuel p q = Done (Nat.odd (length (points p))) /\
  Part001.Contains fuel p q = Done (Nat.odd (length (points p))).
Proof.
  intros Hfuel Hlen Hnan Hleft.
  assert (Hc : IsClosed p = true).
  { destruct (IsClosed p) eqn:Hc; [reflexivity|].
    apply IsClosed_false in Hc. lia. }
  destruct (index_Done (points p) (length (points p) - 1)) as [s Hs]; [lia|].
  destruct (index_Done (points p) 0) as [e He]; [lia|].
  pose proof (index_In _ _ _ Hs) as Hsin. pose proof (index_In _ _ _ He) as Hein.
  assert (Hidx : forall i, In i (seq 1 (length (points p) - 1)) ->
                           1 <= i < length (points p)).
  { intros i Hi. apply in_seq in Hi. lia. }
  assert (Hodd : xorb true (Nat.odd (length (seq 1 (length (points p) - 1))))
                 = Nat.odd (length (points p))).
  { rewrite length_seq.
    replace (length (points p)) with (S (length (points p) - 1)) at 2 by lia.
    rewrite Nat.odd_succ, <- Nat.negb_odd.
    destruct (Nat.odd (length (points p) - 1)); reflexivity. }
  unfold PolygonGo.Contains, Part001.Contains. rewrite Hc. cbn [negb].
  split.
  - rewrite (on_vertex_nan (points p) q Hnan).
    rewrite Hs, He. cbn [mbind outcome_bind].
    rewrite (PolygonGo_intersects_nan (points p) q Hnan Hleft fuel s e Hfuel Hsin Hein).
    cbn [mbind outcome_bind].
    rewrite (PolygonGo_scan_all (points p) q Hnan Hleft fuel _ true Hfuel Hidx).
    rewrite Hodd. reflexivity.
  - rewrite (perturb_nan (points p) q Hnan Hleft fuel (points p) Hfuel) by auto.
    cbn [mbind outcome_bind]. rewrite Hs, He. cbn [mbind outcome_bind].
    rewrite (Part001_intersects_nan (points p) q Hnan Hleft s e Hsin Hein).
    rewrite (Part001_scan_all (points p) q Hnan Hleft _ true Hidx).
    rewrite Hodd. reflexivity.
Qed.

Lemma nan_latitude_parity_witness :
  PolygonGo.Contains 1 square (pt nan (-1)) = Done true /\
  Part001.Contains 1 square (pt nan (-1)) = Done true.
Proof.
  apply (nan_latitude_parity 1 square (pt nan (-1)));
    [lia | simpl; lia | reflexivity |].
  intros v Hv. simpl in Hv.
  repeat (destruct Hv as [<-|Hv]; [vm_compute; reflexivity|]).
  destruct Hv.
Defined.

(** ** Rings listed one after the other *)

Lemma adj_app (l r : list Point) (z b : Point) :
  last l = Some z -> adj (l ++ b :: r) = adj l ++ (z, b) :: adj (b :: r).
Proof.
  induction l as [|x l IH]; intros Hz; [discriminate|].
  destruct l as [|y l].
  - injection Hz as ->. reflexivity.
  - change (adj ((x :: y :: l) ++ b :: r))
      with ((x, y) :: adj ((y :: l) ++ b :: r)).
    rewrite IH by exact Hz. reflexivity.
Qed.

(** An edge from a point to itself is never crossed. *)
Lemma degenerate_edge (q a : Point) :
  not_nan (lat q) = true -> not_nan (lat a) = true ->
  feq (lat q) (lat a) = false ->
  Part001.intersectsWithRaycast q a a = false.
Proof.
  intros Hq Ha Hqa.
  assert (Hc : Part001.crossing q a a = false).
  { unfold Part001.crossing, outside_span. rewrite fgt_flt.
    destruct (flt (lat q) (lat a)) eqn:H1; [reflexivity|].
    destruct (flt (lat a) (lat q)) eqn:H2; [reflexivity|].
    rewrite (feq_of_not_lt _ _ Hq Ha H1 H2) in Hqa. discriminate. }
  unfold Part001.intersectsWithRaycast, orient.
  destruct (fgt (lat a) (lat a)); exact Hc.
Qed.

Lemma ring_last (a : Point) (m : list Point) : last (ring a m) = Some a.
Proof.
  unfold ring. change (a :: m ++ [a]) with ((a :: m) ++ [a]). apply last_snoc.
Qed.

Section Rings.

Variables (fuel : nat) (q : Point).
Hypothesis fuel_pos : 1 <= fuel.
Hypothesis lat_q : not_nan (lat q) = true.

(** Off the vertices, [Contains] is the parity of the crossings with the
    closing edge and with the edges between neighbours. *)
Lemma Contains_crossings (l : list Point) (z : Point) :
  3 <= length l -> last l = Some z -> clear_of l q ->
  Part001.Contains fuel (NewPolygon l) q
  = Done (odd_crossings q (adj (z :: l))).
Proof using fuel_pos.
  intros Hlen Hz Hclear.
  rewrite (Part001_Contains_parity fuel (NewPolygon l) q z).
  - cbn [points].
    rewrite (perturb_clear fuel l q fuel_pos Hclear l) by auto. reflexivity.
  - destruct (IsClosed (NewPolygon l)) eqn:Hc; [reflexivity|].
    apply IsClosed_false in Hc. cbn [points] in Hc. lia.
  - exact Hz.
Qed.

(** For a ring, the closing edge joins the first point to itself and
    counts for nothing. *)
Lemma ring_Contains (a : Point) (m : list Point) :
  clear_of (ring a m) q ->
  (forall v, In v (ring a m) -> not_nan (lat v) = true) ->
  Part001.Contains fuel (NewPolygon (ring a m)) q
  = Done (odd_crossings q (adj (ring a m))).
Proof using fuel_pos lat_q.
  intros Hclear Hnan.
  assert (Ha : In a (ring a m)) by (left; reflexivity).
  pose proof (degenerate_edge q a lat_q (Hnan a Ha) (proj1 (Hclear a Ha))) as Hd.
  destruct m as [|b m].
  - unfold Part001.Contains. cbn. rewrite Hd. reflexivity.
  - rewrite (Contains_crossings (ring a (b :: m)) a).
    + unfold ring. cbn [app adj odd_crossings fold_right fst snd].
      rewrite Hd. reflexivity.
    + unfold ring. cbn [length app]. rewrite length_app. simpl. lia.
    + apply ring_last.
    + exact Hclear.
Qed.

Lemma rings_Contains (a1 a2 : Point) (m1 m2 : list Point) :
  clear_of (ring a1 m1 ++ ring a2 m2) q ->
  (forall v, In v (ring a1 m1 ++ ring a2 m2) -> not_nan (lat v) = true) ->
  Part001.Contains fuel (NewPolygon (ring a1 m1 ++ ring a2 m2)) q
  = Done (xorb (odd_crossings q (adj (ring a1 m1)))
               (odd_crossings q (adj (ring a2 m2)))).
Proof using fuel_pos lat_q.
  intros Hclear Hnan.
  assert (H1 : In a1 (ring a1 m1 ++ ring a2 m2)) by (left; reflexivity).
  assert (H2 : In a2 (ring a1 m1 ++ ring a2 m2)).
  { apply in_or_app. right. left. reflexivity. }
  rewrite (Contains_crossings (ring a1 m1 ++ ring a2 m2) a2).
  - f_equal.
    change (adj (a2 :: ring a1 m1 ++ ring a2 m2))
      with ((a2, a1) :: adj (ring a1 m1 ++ ring a2 m2)).
    unfold ring at 2.
    rewrite (adj_app (ring a1 m1) (m2 ++ [a2]) a1 a2 (ring_last a1 m1)).
    fold (ring a2 m2).
    cbn [odd_crossings fold_right fst snd].
    fold (odd_crossings q (adj (ring a1 m1) ++ (a1, a2) :: adj (ring a2 m2))).
    rewrite odd_crossings_app.
    cbn [odd_crossings fold_right fst snd].
    fold (odd_crossings q (adj (ring a2 m2))).
    rewrite (intersects_sym q a2 a1 lat_q (Hnan a2 H2) (Hnan a1 H1)
               (proj1 (Hclear a2 H2)) (proj1 (Hclear a1 H1))).
    destruct (Part001.intersectsWithRaycast q a1 a2),
      (odd_crossings q (adj (ring a1 m1))),
      (odd_crossings q (adj (ring a2 m2))); reflexivity.
  - rewrite length_app. unfold ring. cbn [length]. rewrite !length_app.
    simpl. lia.
  - unfold ring at 2.
    change (ring a1 m1 ++ a2 :: m2 ++ [a2])
      with (ring a1 m1 ++ (a2 :: m2) ++ [a2]).
    rewrite app_assoc. apply last_snoc.
  - exact Hclear.
Qed.

End Rings.

(** X10. Rings compose by exclusive or. When the points of a polygon are
    two rings listed one after the other (each ending at the point it
    starts from), and the query shares no latitude and no longitude with a
    vertex and no latitude is NaN, [Contains] on the whole list is the
    exclusive or of [Contains] on each ring: a query in a hole is outside.
    Both versions return the same. *)
Theorem rings_compose (fuel : nat) (a1 a2 : Point) (m1 m2 : list Point)
        (q : Point) :
  1 <= fuel ->
  clear_of (ring a1 m1 ++ ring a2 m2) q ->
  not_nan (lat q) = true ->
  (forall v, In v (ring a1 m1 ++ ring a2 m2) -> not_nan (lat v) = true) ->
  exists b1 b2 : bool,
    PolygonGo.Contains fuel (NewPolygon (ring a1 m1)) q = Done b1 /\
    PolygonGo.Contains fuel (NewPolygon (ring a2 m2)) q = Done b2 /\
    PolygonGo.Contains fuel (NewPolygon (ring a1 m1 ++ ring a2 m2)) q
    = Done (xorb b1 b2) /\
    Part001.Contains fuel (NewPolygon (ring a1 m1 ++ ring a2 m2)) q
    = Done (xorb b1 b2).
Proof.
  intros Hfuel Hclear Hq Hnan.
  assert (Hc1 : clear_of (ring a1 m1) q).
  { intros v Hv. apply Hclear. apply in_or_app. left. exact Hv. }
  assert (Hc2 : clear_of (ring a2 m2) q).
  { intros v Hv. apply Hclear. apply in_or_app. right. exact Hv. }
  exists (odd_crossings q (adj (ring a1 m1))),
         (odd_crossings q (adj (ring a2 m2))).
  rewrite (Contains_clear fuel (NewPolygon (ring a1 m1)) q Hfuel Hc1).
  rewrite (Contains_clear fuel (NewPolygon (ring a2 m2)) q Hfuel Hc2).
  rewrite (Contains_clear fuel (NewPolygon (ring a1 m1 ++ ring a2 m2)) q
             Hfuel Hclear).
  repeat split.
  - apply ring_Contains; auto.
    intros v Hv. apply Hnan. apply in_or_app. left. exact Hv.
  - apply ring_Contains; auto.
    intros v Hv. apply Hnan. apply in_or_app. right. exact Hv.
  - apply rings_Contains; auto.
  - apply rings_Contains; auto.
Qed.

Lemma rings_compose_witness :
  exists b1 b2 : bool,
    PolygonGo.Contains 1 (NewPolygon outer_ring) (pt 5 5) = Done b1 /\
    PolygonGo.Contains 1 (NewPolygon inner_ring) (pt 5 5) = Done b2 /\
    PolygonGo.Contains 1 (NewPolygon (outer_ring ++ inner_ring)) (pt 5 5)
    = Done (xorb b1 b2) /\
    Part001.Contains 1 (NewPolygon (outer_ring ++ inner_ring)) (pt 5 5)
    = Done (xorb b1 b2).
Proof.
  apply (rings_compose 1 (pt 0 0) (pt 4 4)
           [pt 0 10; pt 10 10; pt 10 0] [pt 4 6; pt 6 6; pt 6 4] (pt 5 5));
    [lia | | reflexivity |].
  - intros v Hv. simpl in Hv.
    repeat (destruct Hv as [<-|Hv]; [split; vm_compute; reflexivity|]).
    destruct Hv.
  - intros v Hv. simpl in Hv.
    repeat (destruct Hv as [<-|Hv]; [vm_compute; reflexivity|]).
    destruct Hv.
Defined.
